(** * CustomHopWorkletProcessor: hop buffering over fixed-size audio blocks

    A shallow embedding of [src/index.ts].  The class keeps two sets of
    [Float32Array] buffers and two pointers; [process] is called by the host
    with blocks of [WEB_AUDIO_BLOCK_SIZE] samples and hands whole hops to the
    overridable [processBuffered].

    JavaScript objects are shared by reference, so the typed arrays live in
    an explicit store ([heap]) and the two buffer sets hold locations into
    it.  Exceptions keep the mutations made before the throw, so a
    completion always carries the state.  Numbers are integers ([Z]): the
    class only adds the block size to them and compares them. *)

From Stdlib Require Import ZArith List Lia.
From stdpp Require Import base numbers option list.

Local Open Scope Z_scope.

(** ** Values *)

(** [export const WEB_AUDIO_BLOCK_SIZE = 128] *)
Definition WEB_AUDIO_BLOCK_SIZE : Z := 128.

(** A sample is the bit pattern of a binary32 number; [set] and [subarray]
    only move samples around, they never compute with them.  [0] is the
    pattern of [+0], the value a fresh [Float32Array] is filled with. *)
Abbreviation sample := Z (only parsing).

(** The contents of one [Float32Array]. *)
Abbreviation f32array := (list sample) (only parsing).

(** A reference to a [Float32Array] object: its index in the store. *)
Abbreviation loc := nat (only parsing).

(** The store of the typed arrays the processor has allocated. *)
Abbreviation heap := (list (list sample)) (only parsing).

(** A [Float32Array[][]] handed over by the host, by value: the host's
    blocks are never aliased with the processor's own buffers. *)
Abbreviation blocks := (list (list (list sample))) (only parsing).

(** The exceptions the class can raise: the two built-in ones that indexing
    and [set] raise, and the [Error] of an unimplemented [processBuffered]. *)
Inductive exn := TypeError | RangeError | Error.

(** Ghost events, recorded most recent first.  They do not influence the
    run; they make "was invoked", "how often" and "with which buffers"
    statable. *)
Inductive event :=
| EvAccumulate
| EvDrain
| EvReset
| EvInvoke (inputs outputs : blocks).

(** The fields of the class, the store, and the ghost trace. *)
Record state := State {
  _hopSize : Z;
  _outputBuffers : list (list loc);
  _inputBuffers : list (list loc);
  _readPointer : Z;
  _writePointer : Z;
  heap_of : heap;
  trace : list event
}.

Definition set_hopSize (v : Z) (s : state) : state :=
  State v (_outputBuffers s) (_inputBuffers s) (_readPointer s)
        (_writePointer s) (heap_of s) (trace s).
Definition set_outputBuffers (v : list (list loc)) (s : state) : state :=
  State (_hopSize s) v (_inputBuffers s) (_readPointer s)
        (_writePointer s) (heap_of s) (trace s).
Definition set_inputBuffers (v : list (list loc)) (s : state) : state :=
  State (_hopSize s) (_outputBuffers s) v (_readPointer s)
        (_writePointer s) (heap_of s) (trace s).
Definition set_readPointer (v : Z) (s : state) : state :=
  State (_hopSize s) (_outputBuffers s) (_inputBuffers s) v
        (_writePointer s) (heap_of s) (trace s).
Definition set_writePointer (v : Z) (s : state) : state :=
  State (_hopSize s) (_outputBuffers s) (_inputBuffers s) (_readPointer s)
        v (heap_of s) (trace s).
Definition set_heap (v : heap) (s : state) : state :=
  State (_hopSize s) (_outputBuffers s) (_inputBuffers s) (_readPointer s)
        (_writePointer s) v (trace s).
Definition log (e : event) (s : state) : state :=
  State (_hopSize s) (_outputBuffers s) (_inputBuffers s) (_readPointer s)
        (_writePointer s) (heap_of s) (e :: trace s).

(** The object before the constructor body has run: no buffers, and [0]
    standing for the fields that are not assigned yet. *)
Definition blank : state := State 0 [] [] 0 0 [] [].

(** ** Completions: a state monad with exceptions *)

Inductive completion (A : Type) :=
| Normal (a : A) (s : state)
| Throw (e : exn) (s : state).
Arguments Normal {A} a s.
Arguments Throw {A} e s.

Definition M (A : Type) : Type := state -> completion A.

Definition ret {A} (a : A) : M A := fun s => Normal a s.
Definition bind {A B} (m : M A) (k : A -> M B) : M B :=
  fun s => match m s with
           | Normal a s' => k a s'
           | Throw e s' => Throw e s'
           end.
Definition throw {A} (e : exn) : M A := fun s => Throw e s.
Definition gets {A} (f : state -> A) : M A := fun s => Normal (f s) s.
Definition modify (f : state -> state) : M unit := fun s => Normal tt (f s).

Definition final_state {A} (c : completion A) : state :=
  match c with Normal _ s => s | Throw _ s => s end.

Declare Scope js_scope.
Delimit Scope js_scope with js.
Notation "x <- m ;; k" := (bind m (fun x => k))
  (at level 100, m at next level, right associativity) : js_scope.
Notation "m ;; k" := (bind m (fun _ => k))
  (at level 100, right associativity) : js_scope.
Local Open Scope js_scope.

(** [for (let i = i0; i < l.length; i++) body(i, l[i])] over a list that the
    body does not resize. *)
Fixpoint for_each {A} (body : nat -> A -> M unit) (i : nat) (l : list A)
  : M unit :=
  match l with
  | [] => ret tt
  | x :: l' => body i x ;; for_each body (S i) l'
  end.

(** The same loop when the body replaces [l[i]]: the updated list is
    returned. *)
Fixpoint for_update {A} (body : nat -> A -> M A) (i : nat) (l : list A)
  : M (list A) :=
  match l with
  | [] => ret []
  | x :: l' =>
      y <- body i x ;;
      ys <- for_update body (S i) l' ;;
      ret (y :: ys)
  end.

(** [Array.from({ length: n }, f)]: [f] is called [n] times, in order. *)
Fixpoint Array_from_nat {A} (n : nat) (f : M A) : M (list A) :=
  match n with
  | O => ret []
  | S n' =>
      x <- f ;;
      xs <- Array_from_nat n' f ;;
      ret (x :: xs)
  end.

(** [ToLength] sends a negative length to 0. *)
Definition Array_from {A} (length : Z) (f : M A) : M (list A) :=
  Array_from_nat (Z.to_nat length) f.

(** ** Typed arrays *)

(** [new Float32Array(length)]: a [RangeError] for a negative length,
    otherwise a fresh zero-filled array at the end of the store. *)
Definition Float32Array_new (length : Z) : M loc :=
  fun s =>
    if length <? 0 then Throw RangeError s
    else Normal (List.length (heap_of s))
                (set_heap (heap_of s ++ [replicate (Z.to_nat length) 0]) s).

(** How [subarray] resolves a relative index against the length. *)
Definition relative_index (rel len : Z) : Z :=
  if rel <? 0 then Z.max (len + rel) 0 else Z.min rel len.

(** [a.subarray(begin, end)]: both ends are clamped to the array, and the
    view is empty when they cross. *)
Definition subarray (a : f32array) (begin end_ : Z) : f32array :=
  let len := Z.of_nat (List.length a) in
  let b := relative_index begin len in
  let e := relative_index end_ len in
  take (Z.to_nat (Z.max (e - b) 0)) (drop (Z.to_nat b) a).

(** [target.set(source)], offset 0: the source overwrites a prefix of the
    target; a source longer than the target is a [RangeError] ([None]). *)
Definition typed_set (target source : f32array) : option f32array :=
  if (List.length target <? List.length source)%nat then None
  else Some (source ++ drop (List.length source) target).

(** Reading through a reference of the processor. *)
Definition read (l : loc) : M f32array :=
  fun s => match heap_of s !! l with
           | Some a => Normal a s
           | None => Throw TypeError s
           end.

(** [target.set(source)] on an array of the store. *)
Definition Float32Array_set (target : loc) (source : f32array) : M unit :=
  a <- read target ;;
  match typed_set a source with
  | Some a' => modify (fun s => set_heap (<[target := a']> (heap_of s)) s)
  | None => throw RangeError
  end.

(** [x[i][j]] for a nested array, a [TypeError] when it is missing: either
    [x[i]] is [undefined] and indexing it throws, or [x[i][j]] is
    [undefined] and the method called on it, or with it, throws. *)
Definition index2 {A} (x : list (list A)) (i j : nat) : M A :=
  match x !! i with
  | Some row =>
      match row !! j with
      | Some v => ret v
      | None => throw TypeError
      end
  | None => throw TypeError
  end.

(** The contents of a buffer set in a store. *)
Definition deref (h : heap) (bufs : list (list loc)) : blocks :=
  map (map (fun l => default [] (h !! l))) bufs.

(** ** The overridable hook *)

(** What a [processBuffered] does: it returns a boolean or throws, having
    rewritten the typed arrays.  The fields of the class are [private], so
    an override reaches the state through its two arguments only. *)
Inductive hook_result :=
| Returns (b : bool) (h : heap)
| Raises (h : heap).

Abbreviation hook := (list (list loc) -> list (list loc) -> heap -> hook_result)
  (only parsing).

(** The body the base class gives it:
    [throw new Error("Method not implemented.")]. *)
Definition not_implemented : hook := fun _ _ h => Raises h.

(** ** The class *)

Section CustomHopWorkletProcessor.

Variable processBuffered : hook.

(** [setInputAndChannelCount]: fresh buffers for the input side, and for
    the output side the spread [{ ...this._inputBuffers }], which copies the
    row references: both sides then name the same typed arrays. *)
Definition setInputAndChannelCount (inputCount channelCount : Z) : M unit :=
  bufs <- Array_from inputCount
            (Array_from channelCount
               (hop <- gets _hopSize ;; Float32Array_new hop)) ;;
  modify (set_inputBuffers bufs) ;;
  ib <- gets _inputBuffers ;;
  modify (set_outputBuffers ib).

(** The constructor; an omitted count defaults to 0. *)
Definition constructor (hopSize : Z) (inputCount channelCount : option Z)
  : M unit :=
  modify (set_hopSize hopSize) ;;
  setInputAndChannelCount (default 0 inputCount) (default 0 channelCount) ;;
  modify (set_readPointer hopSize) ;;
  modify (set_writePointer 0).

(** [new CustomHopWorkletProcessor(hopSize, inputCount, channelCount)] *)
Definition new (hopSize : Z) (inputCount channelCount : option Z)
  : completion unit :=
  constructor hopSize inputCount channelCount blank.

Definition _outputShiftTo (outputs : blocks) : M blocks :=
  outs <- for_update (fun i outputs_i =>
            for_update (fun j outputs_i_j =>
              obufs <- gets _outputBuffers ;;
              l <- index2 obufs i j ;;
              a <- read l ;;
              rp <- gets _readPointer ;;
              match typed_set outputs_i_j
                      (subarray a rp (rp + WEB_AUDIO_BLOCK_SIZE)) with
              | Some o => ret o
              | None => throw RangeError
              end) 0%nat outputs_i) 0%nat outputs ;;
  modify (fun s => set_readPointer (_readPointer s + WEB_AUDIO_BLOCK_SIZE) s) ;;
  modify (log EvDrain) ;;
  ret outs.

Definition _inputBuffer (input : blocks) : M unit :=
  ibufs <- gets _inputBuffers ;;
  for_each (fun i row =>
    for_each (fun j target =>
      src <- index2 input i j ;;
      Float32Array_set target src) 0%nat row) 0%nat ibufs ;;
  modify (fun s => set_writePointer (_writePointer s + WEB_AUDIO_BLOCK_SIZE) s) ;;
  modify (log EvAccumulate).

Definition _inputHasEnough : M bool :=
  gets (fun s => _writePointer s >=? _hopSize s).

Definition _outputHasMore : M bool :=
  gets (fun s => _readPointer s <? _hopSize s).

Definition _resetPointers : M unit :=
  modify (set_readPointer 0) ;;
  modify (set_writePointer 0) ;;
  modify (log EvReset).

(** The call [this.processBuffered(this._inputBuffers, this._outputBuffers)],
    logged with the contents both arguments have at that moment. *)
Definition call_processBuffered : M bool :=
  fun s =>
    let s' := log (EvInvoke (deref (heap_of s) (_inputBuffers s))
                            (deref (heap_of s) (_outputBuffers s))) s in
    match processBuffered (_inputBuffers s) (_outputBuffers s) (heap_of s) with
    | Returns b h => Normal b (set_heap h s')
    | Raises h => Throw Error (set_heap h s')
    end.

(** [process]: the host's output block is returned next to the boolean. *)
Definition process (inputs outputs : blocks) : M (blocks * bool) :=
  _inputBuffer inputs ;;
  more <- _outputHasMore ;;
  if more then
    outs <- _outputShiftTo outputs ;;
    ret (outs, true)
  else
    enough <- _inputHasEnough ;;
    if negb enough then ret (outputs, true)
    else
      ok <- call_processBuffered ;;
      if negb ok then ret (outputs, false)
      else
        _resetPointers ;;
        outs <- _outputShiftTo outputs ;;
        ret (outs, true).

(** The host: one [process] call per pair of an input and an output block,
    until [process] returns [false] or throws.  The output blocks are
    collected in call order. *)
Fixpoint run (calls : list (blocks * blocks)) : M (list blocks * bool) :=
  match calls with
  | [] => ret ([], true)
  | (inputs, outputs) :: rest =>
      r <- process inputs outputs ;;
      if r.2 then
        rs <- run rest ;;
        ret (r.1 :: rs.1, rs.2)
      else ret ([r.1], false)
  end.

End CustomHopWorkletProcessor.

(** ** Shapes and well-formed states *)

(** A [Float32Array[][]] of [ic] rows of [cc] arrays of [len] samples. *)
Definition shaped (ic cc len : nat) (x : blocks) : Prop :=
  length x = ic /\
  Forall (fun row => length row = cc /\ Forall (fun a => length a = len) row) x.

(** A buffer set of [ic] rows of [cc] references, each to an array of [len]
    samples in the store [h]. *)
Definition buffers (h : heap) (ic cc len : nat) (bufs : list (list loc))
  : Prop :=
  length bufs = ic /\
  Forall (fun row => length row = cc /\
            Forall (fun l => length <$> h !! l = Some len) row) bufs.

(** The state of a processor configured for [ic] inputs of [cc] channels. *)
Definition wf (ic cc : nat) (s : state) : Prop :=
  buffers (heap_of s) ic cc (Z.to_nat (_hopSize s)) (_inputBuffers s) /\
  buffers (heap_of s) ic cc (Z.to_nat (_hopSize s)) (_outputBuffers s).

(** The block of [WEB_AUDIO_BLOCK_SIZE] samples that starts at [k], in every
    array of a buffer set. *)
Definition slice_at (k : Z) (x : blocks) : blocks :=
  map (map (fun a => take (Z.to_nat WEB_AUDIO_BLOCK_SIZE)
                          (drop (Z.to_nat k) a))) x.

(** Channel [j] of input [i], empty when there is none. *)
Definition channel (i j : nat) (x : blocks) : f32array :=
  default [] (x !! i ≫= fun row => row !! j).

(** The calls of [processBuffered] in a trace, oldest first: the contents
    of the input and of the output buffers each call was given. *)
Fixpoint invocations (tr : list event) : list (blocks * blocks) :=
  match tr with
  | [] => []
  | EvInvoke inputs outputs :: tr' => invocations tr' ++ [(inputs, outputs)]
  | _ :: tr' => invocations tr'
  end.

(** The number of drain copies in a trace. *)
Fixpoint drains (tr : list event) : nat :=
  match tr with
  | [] => 0
  | EvDrain :: tr' => S (drains tr')
  | _ :: tr' => drains tr'
  end.

(** The accumulate steps since the last reset of the pointers. *)
Fixpoint since_reset (tr : list event) : nat :=
  match tr with
  | [] => 0
  | EvReset :: _ => 0
  | EvAccumulate :: tr' => S (since_reset tr')
  | _ :: tr' => since_reset tr'
  end.

(** Two stores whose arrays have the same lengths: a typed array cannot be
    resized, only rewritten. *)
Definition same_lengths (h h' : heap) : Prop :=
  length <$> h = length <$> h'.

(** Two stores that agree on every array past its first block. *)
Definition same_tails (h h' : heap) : Prop :=
  drop (Z.to_nat WEB_AUDIO_BLOCK_SIZE) <$> h =
  drop (Z.to_nat WEB_AUDIO_BLOCK_SIZE) <$> h'.

(** ** The states the steps leave, invariants, and concrete data *)

(** [heap_only s0 s]: [s] is [s0] with another store. *)
Definition heap_only (s0 s : state) : Prop := s = set_heap (heap_of s) s0.

(** The invariant of the copy loops: only the store has changed, and its
    arrays have kept their lengths and their contents past the first
    block. *)
Definition copying (s0 s : state) : Prop :=
  heap_only s0 s /\
  same_lengths (heap_of s0) (heap_of s) /\
  same_tails (heap_of s0) (heap_of s).

(** [ic] rows of [cc] entries. *)
Definition rect {A} (ic cc : nat) (x : list (list A)) : Prop :=
  length x = ic /\ Forall (fun row => length row = cc) x.

(** The state after an accumulate step that left the store [h]. *)
Definition accumulated (h : heap) (s : state) : state :=
  log EvAccumulate
    (set_writePointer (_writePointer s + WEB_AUDIO_BLOCK_SIZE) (set_heap h s)).

(** The state after a drain copy. *)
Definition drained (s : state) : state :=
  log EvDrain (set_readPointer (_readPointer s + WEB_AUDIO_BLOCK_SIZE) s).

(** The state after a call of the hook that left the store [h]. *)
Definition invoked (h : heap) (s : state) : state :=
  set_heap h (log (EvInvoke (deref (heap_of s) (_inputBuffers s))
                            (deref (heap_of s) (_outputBuffers s))) s).

(** The state after [_resetPointers]. *)
Definition reset (s : state) : state :=
  log EvReset (set_writePointer 0 (set_readPointer 0 s)).

(** The references [Array.from] hands out, row by row, from a store of
    [base] arrays. *)
Fixpoint rows (base ic cc : nat) : list (list loc) :=
  match ic with
  | O => []
  | S ic' => seq base cc :: rows (base + cc) ic' cc
  end.

(** A fresh [Float32Array] of [hopSize] samples. *)
Definition zeros (hopSize : Z) : f32array := replicate (Z.to_nat hopSize) 0.

(** What [setInputAndChannelCount] leaves behind, for a hop size that a
    typed array can have. *)
Definition reconfigured (inputCount channelCount : Z) (s : state) : state :=
  let bufs := rows (length (heap_of s)) (Z.to_nat inputCount)
                   (Z.to_nat channelCount) in
  set_outputBuffers bufs
    (set_inputBuffers bufs
       (set_heap (heap_of s ++
                  replicate (Z.to_nat inputCount * Z.to_nat channelCount)
                            (zeros (_hopSize s))) s)).

(** The processor [new] returns, for a hop size that a typed array can
    have. *)
Definition fresh (hopSize : Z) (inputCount channelCount : option Z) : state :=
  set_writePointer 0
    (set_readPointer hopSize
       (reconfigured (default 0 inputCount) (default 0 channelCount)
          (set_hopSize hopSize blank))).

(** [s'] is [s] after [k] calls that only accumulated. *)
Definition waited (k : nat) (s s' : state) : Prop :=
  _hopSize s' = _hopSize s /\
  _inputBuffers s' = _inputBuffers s /\
  _outputBuffers s' = _outputBuffers s /\
  _readPointer s' = _readPointer s /\
  _writePointer s' = _writePointer s + WEB_AUDIO_BLOCK_SIZE * Z.of_nat k /\
  invocations (trace s') = invocations (trace s) /\
  drains (trace s') = drains (trace s).

(** The processors a host can be talking to: the one [new] returned, and
    the ones it has after calls of [process] that returned [true]. *)
Inductive running (processBuffered : hook) (hopSize : Z)
          (inputCount channelCount : option Z) : state -> Prop :=
| running_new s :
    new hopSize inputCount channelCount = Normal tt s ->
    running processBuffered hopSize inputCount channelCount s
| running_process s inputs outputs outs s' :
    running processBuffered hopSize inputCount channelCount s ->
    process processBuffered inputs outputs s = Normal (outs, true) s' ->
    running processBuffered hopSize inputCount channelCount s'.

(** The states a processor goes through: those, and the state one more call
    leaves, whether it returns [true], returns [false] or throws; the host
    makes no further call after the last two. *)
Inductive reachable (processBuffered : hook) (hopSize : Z)
          (inputCount channelCount : option Z) : state -> Prop :=
| reachable_running s :
    running processBuffered hopSize inputCount channelCount s ->
    reachable processBuffered hopSize inputCount channelCount s
| reachable_last s inputs outputs :
    running processBuffered hopSize inputCount channelCount s ->
    reachable processBuffered hopSize inputCount channelCount
              (final_state (process processBuffered inputs outputs s)).

(** Between two calls: the hop is not full, and either nothing is pending or
    the drain is one block ahead of the accumulation. *)
Definition cycle_inv (n : Z) (s : state) : Prop :=
  _hopSize s = n * WEB_AUDIO_BLOCK_SIZE /\
  _writePointer s < _hopSize s /\
  (_readPointer s = _hopSize s \/
   _readPointer s = _writePointer s + WEB_AUDIO_BLOCK_SIZE) /\
  _writePointer s
  = WEB_AUDIO_BLOCK_SIZE * Z.of_nat (since_reset (trace s)).

(** At any time: both pointers within the hop, and the write pointer
    counting the accumulate steps since the last reset. *)
Definition in_bounds (s : state) : Prop :=
  0 <= _writePointer s <= _hopSize s /\
  0 <= _readPointer s <= _hopSize s /\
  _writePointer s
  = WEB_AUDIO_BLOCK_SIZE * Z.of_nat (since_reset (trace s)).

(** A hook that leaves the store alone and reports success. *)
Definition passthrough : hook := fun _ _ h => Returns true h.

(** A hook that fills its output buffers with the sample 7 and reports
    success. *)
Definition filling : hook :=
  fun _ outputs h =>
    Returns true
      (foldr (fun l h' =>
                <[l := replicate (length (default [] (h' !! l))) 7]> h')
             h (concat outputs)).

(** A hook that leaves the store alone and reports failure. *)
Definition failing : hook := fun _ _ h => Returns false h.

(** Construction followed by a run of calls. *)
Definition session (processBuffered : hook) (hopSize : Z)
           (inputCount channelCount : option Z)
           (calls : list (blocks * blocks))
  : completion (list blocks * bool) :=
  (constructor hopSize inputCount channelCount ;;
   run processBuffered calls) blank.

(** Three blocks of [WEB_AUDIO_BLOCK_SIZE] samples. *)
Definition ones : f32array := replicate 128 1.
Definition twos : f32array := replicate 128 2.
Definition silence : f32array := replicate 128 0.

(** A processor for hops of two blocks, one input, one channel, after its
    first call. *)
Definition after_one_block : state :=
  final_state (session passthrough 256 (Some 1) (Some 1)
                 [([[ones]], [[silence]])]).

(** The same processor in the middle of a drain, its write pointer already
    at the hop size. *)
Definition mid_drain : state :=
  State 256 [[0%nat]] [[0%nat]] 128 256 [replicate 256 7] [].

(** ** Further notions *)

(** [set] of a window onto an output channel: the window replaces a prefix,
    the rest of the channel stays.  [overlay] does it for every channel of
    a block. *)
Definition overlay (windows outputs : blocks) : blocks :=
  zip_with (zip_with (fun w o => w ++ drop (length w) o)) windows outputs.

(** The steady state of a processor for hops of [n] blocks: [c] blocks are
    accumulated, and the drain is one block ahead. *)
Definition phase (n c : Z) (s : state) : Prop :=
  _hopSize s = n * WEB_AUDIO_BLOCK_SIZE /\
  0 <= c < n /\
  _writePointer s = WEB_AUDIO_BLOCK_SIZE * c /\
  _readPointer s = WEB_AUDIO_BLOCK_SIZE * (c + 1).


(** A processor for hops of 200 samples, not a multiple of the block size,
    with 72 samples left to drain. *)
Definition partial_drain : state :=
  State 200 [[0%nat]] [[0%nat]] 128 128 [replicate 200 7] [].

(** The processor for hops of two blocks right after its first hop. *)
Definition after_first_hop : state :=
  final_state (session passthrough 256 (Some 1) (Some 1)
                 [([[ones]], [[silence]]); ([[twos]], [[silence]])]).

(** * Properties *)

(** ** The monad and the loops *)

Lemma bind_Normal {A B} (m : M A) (k : A -> M B) s a s' :
  m s = Normal a s' -> bind m k s = k a s'.
Proof. unfold bind. by intros ->. Qed.

Lemma bind_Throw {A B} (m : M A) (k : A -> M B) s e s' :
  m s = Throw e s' -> bind m k s = Throw e s'.
Proof. unfold bind. by intros ->. Qed.

(** A property every body keeps, whether it returns or throws, holds when
    the loop is left. *)
Lemma for_each_final {A} (body : nat -> A -> M unit) (P : state -> Prop) :
  (forall k x s, P s -> P (final_state (body k x s))) ->
  forall l i s, P s -> P (final_state (for_each body i l s)).
Proof.
  intros Hbody l. induction l as [|x l IH]; intros i s Hs; simpl; [done|].
  unfold bind. specialize (Hbody i x s Hs).
  destruct (body i x s) as [[] s'|e s']; simpl in *; [by apply IH | done].
Qed.

(** A loop whose bodies all return under an invariant returns, and keeps
    the invariant. *)
Lemma for_each_total {A} (body : nat -> A -> M unit) (I : state -> Prop) l :
  forall i s,
    I s ->
    (forall k x s, l !! k = Some x -> I s ->
                   exists s', body (i + k)%nat x s = Normal tt s' /\ I s') ->
    exists s', for_each body i l s = Normal tt s' /\ I s'.
Proof.
  induction l as [|x l IH]; intros i s Hs Hbody; simpl.
  - by exists s.
  - destruct (Hbody 0%nat x s eq_refl Hs) as (s1 & E1 & Hs1).
    rewrite Nat.add_0_r in E1. rewrite (bind_Normal _ _ _ _ _ E1).
    apply IH; [done|]. intros k y s2 Hk Hs2.
    replace (S i + k)%nat with (i + S k)%nat by lia. by apply Hbody.
Qed.

Lemma for_update_final {A} (body : nat -> A -> M A) (P : state -> Prop) :
  (forall k x s, P s -> P (final_state (body k x s))) ->
  forall l i s, P s -> P (final_state (for_update body i l s)).
Proof.
  intros Hbody l. induction l as [|x l IH]; intros i s Hs; simpl; [done|].
  unfold bind at 1. specialize (Hbody i x s Hs).
  destruct (body i x s) as [y s'|e s']; simpl in *; [|done].
  unfold bind. specialize (IH (S i) s' Hbody).
  by destruct (for_update body (S i) l s').
Qed.

(** A loop whose bodies read the state without changing it. *)
Lemma for_update_pure {A} (body : nat -> A -> M A) (g : nat -> A -> A) l s :
  forall i,
    (forall k x, l !! k = Some x ->
                 body (i + k)%nat x s = Normal (g (i + k)%nat x) s) ->
    for_update body i l s = Normal (imap (fun k => g (i + k)%nat) l) s.
Proof.
  induction l as [|x l IH]; intros i Hbody; simpl; [done|].
  pose proof (Hbody 0%nat x eq_refl) as E. rewrite Nat.add_0_r in E.
  rewrite (bind_Normal _ _ _ _ _ E).
  assert (for_update body (S i) l s
          = Normal (imap (fun k => g (S i + k)%nat) l) s) as E'.
  { apply IH. intros k y Hk.
    replace (S i + k)%nat with (i + S k)%nat by lia. by apply Hbody. }
  rewrite (bind_Normal _ _ _ _ _ E'). unfold ret. do 2 f_equal.
  - f_equal. lia.
  - apply imap_ext. intros k y _. simpl. f_equal. lia.
Qed.

(** ** Stores *)

Lemma same_lengths_refl h : same_lengths h h.
Proof. done. Qed.

Lemma same_lengths_trans h1 h2 h3 :
  same_lengths h1 h2 -> same_lengths h2 h3 -> same_lengths h1 h3.
Proof. unfold same_lengths. congruence. Qed.

Lemma same_tails_trans h1 h2 h3 :
  same_tails h1 h2 -> same_tails h2 h3 -> same_tails h1 h3.
Proof. unfold same_tails. congruence. Qed.

Lemma same_lengths_lookup (h h' : heap) l :
  same_lengths h h' -> length <$> h' !! l = length <$> h !! l.
Proof.
  intros E. rewrite <- !list_lookup_fmap. unfold same_lengths in E.
  by rewrite E.
Qed.

Lemma same_tails_lookup (h h' : heap) l :
  same_tails h h' ->
  drop (Z.to_nat WEB_AUDIO_BLOCK_SIZE) <$> h' !! l =
  drop (Z.to_nat WEB_AUDIO_BLOCK_SIZE) <$> h !! l.
Proof.
  intros E. rewrite <- !list_lookup_fmap. unfold same_tails in E.
  by rewrite E.
Qed.

Lemma buffers_same_lengths h h' ic cc len bufs :
  same_lengths h h' -> buffers h ic cc len bufs -> buffers h' ic cc len bufs.
Proof.
  intros E [Hic Hrows]. split; [done|].
  eapply Forall_impl; [exact Hrows|]. intros row [Hcc Hrow]. split; [done|].
  eapply Forall_impl; [exact Hrow|]. intros l Hl. simpl in *.
  by rewrite (same_lengths_lookup _ _ _ E).
Qed.

Lemma buffers_lookup h ic cc len bufs i j row l :
  buffers h ic cc len bufs -> bufs !! i = Some row -> row !! j = Some l ->
  exists a, h !! l = Some a /\ length a = len.
Proof.
  intros [_ Hrows] Hi Hj.
  pose proof (Forall_lookup_1 _ _ _ _ Hrows Hi) as [_ Hrow].
  pose proof (Forall_lookup_1 _ _ _ _ Hrow Hj) as Hl. simpl in Hl.
  destruct (h !! l) as [a|]; [|done]. exists a. split; [done|].
  by injection Hl.
Qed.

Lemma shaped_lookup ic cc len (x : blocks) i j :
  shaped ic cc len x -> (i < ic)%nat -> (j < cc)%nat ->
  exists row a, x !! i = Some row /\ row !! j = Some a /\ length a = len.
Proof.
  intros [Hic Hrows] Hi Hj.
  destruct (lookup_lt_is_Some_2 x i) as [row Hrow]; [lia|].
  pose proof (Forall_lookup_1 _ _ _ _ Hrows Hrow) as [Hcc Hall].
  destruct (lookup_lt_is_Some_2 row j) as [a Ha]; [lia|].
  exists row, a. repeat split; try done.
  exact (Forall_lookup_1 _ _ _ _ Hall Ha).
Qed.

(** [set] of one block into a longer array keeps its length and everything
    past the block. *)
Lemma typed_set_block (a src : f32array) :
  (length src <= length a)%nat ->
  typed_set a src = Some (src ++ drop (length src) a).
Proof.
  intros H. unfold typed_set.
  destruct (Nat.ltb_spec (length a) (length src)); [lia | done].
Qed.

Lemma set_keeps_length (a src : f32array) :
  (length src <= length a)%nat ->
  length (src ++ drop (length src) a) = length a.
Proof. intros H. rewrite length_app, length_drop. lia. Qed.

Lemma set_keeps_tail (a src : f32array) n :
  (length src <= n)%nat ->
  drop n (src ++ drop (length src) a) = drop n a.
Proof.
  intros H. rewrite drop_app_ge by done. rewrite drop_drop. f_equal. lia.
Qed.

(** ** The accumulate step *)

Lemma heap_only_refl s : heap_only s s.
Proof. by destruct s. Qed.

Lemma heap_only_set_heap s0 s h : heap_only s0 s -> heap_only s0 (set_heap h s).
Proof. unfold heap_only. intros ->. by destruct s0. Qed.

Lemma index2_cases {A} (x : list (list A)) i j s :
  (exists v, x !! i ≫= (fun row => row !! j) = Some v /\
             index2 x i j s = Normal v s) \/
  (x !! i ≫= (fun row => row !! j) = None /\
   index2 x i j s = Throw TypeError s).
Proof.
  unfold index2. destruct (x !! i) as [row|]; simpl; [|by right].
  destruct (row !! j) as [v|]; [left; by exists v | by right].
Qed.

Lemma Float32Array_set_final s0 target src s :
  heap_only s0 s -> heap_only s0 (final_state (Float32Array_set target src s)).
Proof.
  intros Hs. unfold Float32Array_set, bind, read.
  destruct (heap_of s !! target) as [a|]; simpl; [|done].
  destruct (typed_set a src); simpl; [|done].
  by apply heap_only_set_heap.
Qed.

Lemma copy_in_final (input : blocks) s0 i j target s :
  heap_only s0 s ->
  heap_only s0 (final_state
    ((src <- index2 input i j ;; Float32Array_set target src) s)).
Proof.
  intros Hs. unfold bind at 1.
  destruct (index2_cases input i j s) as [(v & _ & ->)|[_ ->]]; [|done].
  by apply Float32Array_set_final.
Qed.

Lemma copy_loops_final (input : blocks) s0 bufs s :
  heap_only s0 s ->
  heap_only s0 (final_state
    (for_each (fun i row =>
       for_each (fun j target =>
         src <- index2 input i j ;; Float32Array_set target src)
         0%nat row) 0%nat bufs s)).
Proof.
  apply for_each_final. intros i row s1 Hs1.
  apply for_each_final; [|done]. intros. by apply copy_in_final.
Qed.

(** However [_inputBuffer] ends, it has touched the store only, and, when it
    returns, the write pointer and the trace. *)
Lemma _inputBuffer_final input s :
  match _inputBuffer input s with
  | Normal _ s1 =>
      s1 = log EvAccumulate
             (set_writePointer (_writePointer s + WEB_AUDIO_BLOCK_SIZE)
                (set_heap (heap_of s1) s))
  | Throw _ s1 => s1 = set_heap (heap_of s1) s
  end.
Proof.
  unfold _inputBuffer. unfold bind at 1, gets at 1. unfold bind at 1.
  pose proof (copy_loops_final input s (_inputBuffers s) s (heap_only_refl s))
    as Hloop. unfold heap_only in Hloop.
  destruct (for_each _ _ _ s) as [[] s1|e s1]; simpl in Hloop; [|done].
  unfold bind, modify. cbn [heap_of log set_writePointer].
  rewrite <- Hloop.
  replace (_writePointer s1) with (_writePointer s); [done|].
  rewrite Hloop. by destruct s.
Qed.

Lemma _inputBuffer_Normal input s s1 :
  _inputBuffer input s = Normal tt s1 ->
  s1 = log EvAccumulate
         (set_writePointer (_writePointer s + WEB_AUDIO_BLOCK_SIZE)
            (set_heap (heap_of s1) s)).
Proof. intros E. pose proof (_inputBuffer_final input s) as H. by rewrite E in H. Qed.

Lemma copy_in_ok (input : blocks) s0 i j target src len s :
  copying s0 s ->
  length <$> heap_of s0 !! target = Some len ->
  input !! i ≫= (fun row => row !! j) = Some src ->
  length src = Z.to_nat WEB_AUDIO_BLOCK_SIZE ->
  (Z.to_nat WEB_AUDIO_BLOCK_SIZE <= len)%nat ->
  exists s',
    (src <- index2 input i j ;; Float32Array_set target src) s = Normal tt s'
    /\ copying s0 s'.
Proof.
  intros (Hs & Hlen & Htail) Htarget Hsrc Hblock Hfit.
  destruct (index2_cases input i j s) as [(v & Hv & E)|[Hv _]];
    [|congruence].
  rewrite (bind_Normal _ _ _ _ _ E).
  assert (v = src) as -> by congruence.
  rewrite <- (same_lengths_lookup _ _ _ Hlen) in Htarget.
  destruct (heap_of s !! target) as [a|] eqn:Ha; [|done].
  injection Htarget as Ha'.
  unfold Float32Array_set, bind, read. rewrite Ha.
  rewrite typed_set_block by lia. unfold modify. eexists. split; [done|].
  split; [by apply heap_only_set_heap|].
  destruct s; simpl in *. split.
  - eapply same_lengths_trans; [exact Hlen|]. unfold same_lengths.
    rewrite list_fmap_insert, set_keeps_length by lia.
    symmetry. apply list_insert_id. by rewrite list_lookup_fmap, Ha.
  - eapply same_tails_trans; [exact Htail|]. unfold same_tails.
    rewrite list_fmap_insert, set_keeps_tail by lia.
    symmetry. apply list_insert_id. by rewrite list_lookup_fmap, Ha.
Qed.

(** On a block of the configured shape the accumulate step returns. *)
Lemma _inputBuffer_ok ic cc input s :
  buffers (heap_of s) ic cc (Z.to_nat (_hopSize s)) (_inputBuffers s) ->
  shaped ic cc (Z.to_nat WEB_AUDIO_BLOCK_SIZE) input ->
  WEB_AUDIO_BLOCK_SIZE <= _hopSize s ->
  exists h,
    _inputBuffer input s
    = Normal tt (log EvAccumulate
                   (set_writePointer (_writePointer s + WEB_AUDIO_BLOCK_SIZE)
                      (set_heap h s)))
    /\ same_lengths (heap_of s) h /\ same_tails (heap_of s) h.
Proof.
  intros Hbufs Hshape Hhop.
  assert (exists s1, for_each (fun i row =>
            for_each (fun j target =>
              src <- index2 input i j ;; Float32Array_set target src)
              0%nat row) 0%nat (_inputBuffers s) s = Normal tt s1
          /\ copying s s1) as (s1 & E & Hs1 & Hlen & Htail).
  { apply for_each_total; [by split; [apply heap_only_refl|]|].
    intros i row s2 Hrow Hs2. simpl.
    apply for_each_total; [done|]. intros j target s3 Htarget Hs3. simpl.
    destruct (buffers_lookup _ _ _ _ _ _ _ _ _ Hbufs Hrow Htarget)
      as (a & Ha & Halen).
    destruct Hbufs as [Hic Hrows].
    pose proof (Forall_lookup_1 _ _ _ _ Hrows Hrow) as [Hcc _].
    destruct (shaped_lookup _ _ _ _ i j Hshape) as (irow & src & Hi & Hj & Hsrc).
    { rewrite <- Hic. by eapply lookup_lt_Some. }
    { rewrite <- Hcc. by eapply lookup_lt_Some. }
    eapply copy_in_ok; [done| | |done|].
    - by rewrite Ha.
    - by rewrite Hi.
    - rewrite Halen. lia. }
  exists (heap_of s1). split; [|done].
  assert (_inputBuffer input s
          = Normal tt (log EvAccumulate
              (set_writePointer (_writePointer s1 + WEB_AUDIO_BLOCK_SIZE) s1)))
    as E'.
  { unfold _inputBuffer. unfold bind at 1, gets at 1.
    by rewrite (bind_Normal _ _ _ _ _ E). }
  rewrite E'. f_equal. exact (_inputBuffer_Normal _ _ _ E').
Qed.

(** ** The drain copy *)

Lemma shaped_rect ic cc len x : shaped ic cc len x -> rect ic cc x.
Proof.
  intros [Hic Hrows]. split; [done|].
  eapply Forall_impl; [exact Hrows|]. by intros row [? _].
Qed.

Lemma buffers_rect h ic cc len bufs : buffers h ic cc len bufs -> rect ic cc bufs.
Proof.
  intros [Hic Hrows]. split; [done|].
  eapply Forall_impl; [exact Hrows|]. by intros row [? _].
Qed.

Lemma rect_fmap {A B} (f : A -> B) ic cc (x : list (list A)) :
  rect ic cc x -> rect ic cc (map (map f) x).
Proof.
  intros [Hic Hrows]. split; [by rewrite length_map|].
  apply Forall_fmap. eapply Forall_impl; [exact Hrows|].
  intros row Hrow. simpl. by rewrite length_map.
Qed.

Lemma channel_lookup (x : blocks) i j row a :
  x !! i = Some row -> row !! j = Some a -> channel i j x = a.
Proof. intros Hi Hj. unfold channel. by rewrite Hi; simpl; rewrite Hj. Qed.

(** Reading a set of blocks channel by channel, over any array of the same
    shape, gives the blocks back. *)
Lemma imap_channel {A} ic cc (x : blocks) (y : list (list A)) :
  rect ic cc x -> rect ic cc y ->
  imap (fun i row => imap (fun j _ => channel i j x) row) y = x.
Proof.
  intros [Hxi Hx] [Hyi Hy]. apply list_eq. intros i.
  rewrite list_lookup_imap.
  destruct (y !! i) as [yrow|] eqn:Hyrow; simpl.
  - destruct (lookup_lt_is_Some_2 x i) as [xrow Hxrow].
    { rewrite Hxi, <- Hyi. by eapply lookup_lt_Some. }
    rewrite Hxrow. f_equal.
    pose proof (Forall_lookup_1 _ _ _ _ Hx Hxrow) as Hxc.
    pose proof (Forall_lookup_1 _ _ _ _ Hy Hyrow) as Hyc. simpl in *.
    apply list_eq. intros j. rewrite list_lookup_imap.
    destruct (yrow !! j) as [b|] eqn:Hb; simpl.
    + destruct (lookup_lt_is_Some_2 xrow j) as [a Ha].
      { rewrite Hxc, <- Hyc. by eapply lookup_lt_Some. }
      rewrite Ha. f_equal. by eapply channel_lookup.
    + symmetry. apply lookup_ge_None. apply lookup_ge_None in Hb. lia.
  - symmetry. apply lookup_ge_None. apply lookup_ge_None in Hyrow. lia.
Qed.

(** An in-range window of one block is exactly the block at that offset. *)
Lemma subarray_block (a : f32array) (k : Z) :
  0 <= k -> k + WEB_AUDIO_BLOCK_SIZE <= Z.of_nat (length a) ->
  subarray a k (k + WEB_AUDIO_BLOCK_SIZE)
  = take (Z.to_nat WEB_AUDIO_BLOCK_SIZE) (drop (Z.to_nat k) a).
Proof.
  intros Hk Hfit. unfold subarray, relative_index.
  assert (0 < WEB_AUDIO_BLOCK_SIZE) by done.
  destruct (Z.ltb_spec k 0); [lia|].
  destruct (Z.ltb_spec (k + WEB_AUDIO_BLOCK_SIZE) 0); [lia|].
  do 2 f_equal; lia.
Qed.

Lemma length_block (a : f32array) (k : Z) :
  0 <= k -> k + WEB_AUDIO_BLOCK_SIZE <= Z.of_nat (length a) ->
  length (take (Z.to_nat WEB_AUDIO_BLOCK_SIZE) (drop (Z.to_nat k) a))
  = Z.to_nat WEB_AUDIO_BLOCK_SIZE.
Proof. intros Hk Hfit. rewrite length_take, length_drop. lia. Qed.

(** A block written over a block replaces it. *)
Lemma typed_set_whole (o src : f32array) :
  length o = length src -> typed_set o src = Some src.
Proof.
  intros E. rewrite typed_set_block by lia. rewrite <- E, drop_all.
  by rewrite app_nil_r.
Qed.

Lemma channel_slice_deref (h : heap) bufs k i j row l a :
  bufs !! i = Some row -> row !! j = Some l -> h !! l = Some a ->
  channel i j (slice_at k (deref h bufs))
  = take (Z.to_nat WEB_AUDIO_BLOCK_SIZE) (drop (Z.to_nat k) a).
Proof.
  intros Hi Hj Ha. unfold slice_at, deref.
  eapply channel_lookup.
  - by rewrite !list_lookup_fmap, Hi.
  - rewrite !list_lookup_fmap, Hj. simpl. by rewrite Ha.
Qed.

(** However [_outputShiftTo] ends, it has moved the read pointer only, and
    only when it returns. *)
Lemma _outputShiftTo_final outputs s :
  match _outputShiftTo outputs s with
  | Normal _ s' =>
      s' = log EvDrain
             (set_readPointer (_readPointer s + WEB_AUDIO_BLOCK_SIZE) s)
  | Throw _ s' => s' = s
  end.
Proof.
  unfold _outputShiftTo. unfold bind at 1.
  match goal with |- context [for_update ?b ?i ?l s] =>
    pose proof (for_update_final b (fun s' => s' = s)) as Hloop;
    specialize (fun H => Hloop H l i s eq_refl);
    destruct (for_update b i l s) as [outs s1|e s1]
  end; simpl in Hloop.
  - unfold bind, modify, ret. rewrite Hloop; [done|].
    intros i row s2 ->. apply for_update_final; [|done].
    intros j o s2 ->. unfold bind, gets.
    destruct (index2_cases (_outputBuffers s) i j s) as [(l & _ & ->)|[_ ->]];
      [|done].
    unfold read. destruct (heap_of s !! l); [|done].
    by destruct (typed_set _ _).
  - apply Hloop.
    intros i row s2 ->. apply for_update_final; [|done].
    intros j o s2 ->. unfold bind, gets.
    destruct (index2_cases (_outputBuffers s) i j s) as [(l & _ & ->)|[_ ->]];
      [|done].
    unfold read. destruct (heap_of s !! l); [|done].
    by destruct (typed_set _ _).
Qed.

(** On an output block of the configured shape, with a whole block left in
    the drain buffers, the drain copy delivers the block at the read
    pointer. *)
Lemma _outputShiftTo_ok ic cc outputs s :
  buffers (heap_of s) ic cc (Z.to_nat (_hopSize s)) (_outputBuffers s) ->
  shaped ic cc (Z.to_nat WEB_AUDIO_BLOCK_SIZE) outputs ->
  0 <= _readPointer s ->
  _readPointer s + WEB_AUDIO_BLOCK_SIZE <= _hopSize s ->
  _outputShiftTo outputs s
  = Normal (slice_at (_readPointer s)
              (deref (heap_of s) (_outputBuffers s)))
           (log EvDrain
              (set_readPointer (_readPointer s + WEB_AUDIO_BLOCK_SIZE) s)).
Proof.
  intros Hbufs Hshape Hrp Hfit. unfold _outputShiftTo.
  set (x := slice_at (_readPointer s) (deref (heap_of s) (_outputBuffers s))).
  erewrite bind_Normal; [| apply (for_update_pure _
    (fun i row => imap (fun j _ => channel i j x) row))].
  - unfold bind, modify, ret. do 2 f_equal.
    apply (imap_channel ic cc).
    + apply rect_fmap, rect_fmap. by eapply buffers_rect.
    + by eapply shaped_rect.
  - intros i orow Horow. simpl.
    apply (for_update_pure _ (fun j _ => channel i j x)).
    intros j o Ho. simpl.
    destruct Hshape as [Hic Hrows].
    pose proof (Forall_lookup_1 _ _ _ _ Hrows Horow) as [Hcc Hall].
    pose proof (Forall_lookup_1 _ _ _ _ Hall Ho) as Holen. simpl in Holen.
    destruct (lookup_lt_is_Some_2 (_outputBuffers s) i) as [row Hrow].
    { destruct Hbufs as [-> _]. rewrite <- Hic. by eapply lookup_lt_Some. }
    destruct (lookup_lt_is_Some_2 row j) as [l Hl].
    { destruct Hbufs as [_ Hb].
      pose proof (Forall_lookup_1 _ _ _ _ Hb Hrow) as [-> _].
      rewrite <- Hcc. by eapply lookup_lt_Some. }
    destruct (buffers_lookup _ _ _ _ _ _ _ _ _ Hbufs Hrow Hl)
      as (a & Ha & Halen).
    unfold bind, gets, index2. rewrite Hrow, Hl. unfold ret, read.
    rewrite Ha. rewrite subarray_block by lia.
    rewrite typed_set_whole by (rewrite length_block; lia).
    f_equal. symmetry. unfold x. by eapply channel_slice_deref.
Qed.

(** ** The three ways through [process] *)

Section Dispatch.

Variable processBuffered : hook.

Lemma process_pending inputs outputs s s1 :
  _inputBuffer inputs s = Normal tt s1 ->
  _readPointer s1 < _hopSize s1 ->
  process processBuffered inputs outputs s
  = (outs <- _outputShiftTo outputs ;; ret (outs, true)) s1.
Proof.
  intros E Hrp. unfold process. rewrite (bind_Normal _ _ _ _ _ E).
  unfold bind at 1, _outputHasMore, gets.
  by destruct (Z.ltb_spec (_readPointer s1) (_hopSize s1)); [|lia].
Qed.

Lemma process_waiting inputs outputs s s1 :
  _inputBuffer inputs s = Normal tt s1 ->
  _hopSize s1 <= _readPointer s1 ->
  _writePointer s1 < _hopSize s1 ->
  process processBuffered inputs outputs s = Normal (outputs, true) s1.
Proof.
  intros E Hrp Hwp. unfold process. rewrite (bind_Normal _ _ _ _ _ E).
  unfold bind at 1, _outputHasMore, gets.
  destruct (Z.ltb_spec (_readPointer s1) (_hopSize s1)); [lia|].
  unfold bind at 1, _inputHasEnough, gets. rewrite Z.geb_leb.
  by destruct (Z.leb_spec (_hopSize s1) (_writePointer s1)); [lia|].
Qed.

Lemma process_ready inputs outputs s s1 :
  _inputBuffer inputs s = Normal tt s1 ->
  _hopSize s1 <= _readPointer s1 ->
  _hopSize s1 <= _writePointer s1 ->
  process processBuffered inputs outputs s
  = (ok <- call_processBuffered processBuffered ;;
     if negb ok then ret (outputs, false)
     else _resetPointers ;;
          outs <- _outputShiftTo outputs ;;
          ret (outs, true)) s1.
Proof.
  intros E Hrp Hwp. unfold process. rewrite (bind_Normal _ _ _ _ _ E).
  unfold bind at 1, _outputHasMore, gets.
  destruct (Z.ltb_spec (_readPointer s1) (_hopSize s1)); [lia|].
  unfold bind at 1, _inputHasEnough, gets. rewrite Z.geb_leb.
  by destruct (Z.leb_spec (_hopSize s1) (_writePointer s1)); [|lia].
Qed.

Lemma process_throws_early inputs outputs s e s1 :
  _inputBuffer inputs s = Throw e s1 ->
  process processBuffered inputs outputs s = Throw e s1.
Proof. intros E. unfold process. by rewrite (bind_Throw _ _ _ _ _ E). Qed.

End Dispatch.

(** ** Well-formed states *)

Lemma wf_frame ic cc s s' :
  _hopSize s' = _hopSize s ->
  _inputBuffers s' = _inputBuffers s ->
  _outputBuffers s' = _outputBuffers s ->
  same_lengths (heap_of s) (heap_of s') ->
  wf ic cc s -> wf ic cc s'.
Proof.
  intros Hhop Hin Hout Hlen [Hi Ho]. unfold wf. rewrite Hhop, Hin, Hout.
  split; by eapply buffers_same_lengths.
Qed.

(** Past the first block, a window of the drain buffers does not depend on
    what the accumulate step has written. *)
Lemma slice_at_same_tails (h h' : heap) bufs k :
  same_tails h h' -> WEB_AUDIO_BLOCK_SIZE <= k ->
  slice_at k (deref h bufs) = slice_at k (deref h' bufs).
Proof.
  intros Htails Hk. unfold slice_at, deref. rewrite !map_map.
  apply map_ext. intros row. rewrite !map_map. apply map_ext. intros l.
  f_equal.
  replace (Z.to_nat k)
    with (Z.to_nat WEB_AUDIO_BLOCK_SIZE
          + (Z.to_nat k - Z.to_nat WEB_AUDIO_BLOCK_SIZE))%nat by lia.
  rewrite <- !drop_drop. f_equal.
  pose proof (same_tails_lookup _ _ l Htails) as E.
  destruct (h !! l), (h' !! l); simpl in *; congruence.
Qed.

Lemma channel_slice_at (x : blocks) k i j :
  channel i j (slice_at k x)
  = take (Z.to_nat WEB_AUDIO_BLOCK_SIZE) (drop (Z.to_nat k) (channel i j x)).
Proof.
  unfold channel, slice_at. rewrite list_lookup_fmap.
  destruct (x !! i) as [row|]; simpl.
  - rewrite list_lookup_fmap. destruct (row !! j); simpl; [done|].
    by rewrite drop_nil, take_nil.
  - by rewrite drop_nil, take_nil.
Qed.

(** Cutting an array into consecutive blocks and joining them again. *)
Lemma concat_blocks (a : f32array) (b : nat) n k0 :
  concat (map (fun k => take b (drop (k * b) a)) (seq k0 n))
  = take (n * b) (drop (k0 * b) a).
Proof.
  revert k0. induction n as [|n IH]; intros k0; simpl; [done|].
  rewrite IH. rewrite <- take_take_drop. f_equal.
  rewrite drop_drop. do 2 f_equal. lia.
Qed.

Section Steps.

Variable processBuffered : hook.
Variables ic cc : nat.

Lemma wf_accumulated h s :
  same_lengths (heap_of s) h -> wf ic cc s -> wf ic cc (accumulated h s).
Proof. intros Hlen. by apply wf_frame. Qed.

(** A call that accumulates and drains. *)
Lemma step_draining inputs outputs s :
  wf ic cc s ->
  shaped ic cc (Z.to_nat WEB_AUDIO_BLOCK_SIZE) inputs ->
  shaped ic cc (Z.to_nat WEB_AUDIO_BLOCK_SIZE) outputs ->
  0 <= _readPointer s ->
  _readPointer s + WEB_AUDIO_BLOCK_SIZE <= _hopSize s ->
  exists h,
    process processBuffered inputs outputs s
    = Normal (slice_at (_readPointer s) (deref h (_outputBuffers s)), true)
             (drained (accumulated h s))
    /\ same_lengths (heap_of s) h /\ same_tails (heap_of s) h.
Proof.
  intros Hwf Hins Houts Hrp Hfit.
  assert (0 < WEB_AUDIO_BLOCK_SIZE) by done.
  destruct (_inputBuffer_ok _ _ _ _ (proj1 Hwf) Hins) as (h & E & Hlen & Htail);
    [lia|].
  exists h. split; [|done].
  rewrite (process_pending _ _ _ _ _ E) by (simpl; lia).
  pose proof (wf_accumulated _ _ Hlen Hwf) as [_ Hout].
  erewrite bind_Normal; [|by eapply _outputShiftTo_ok]. done.
Qed.

(** A call that completes a hop, when the hook succeeds. *)
Lemma step_processing inputs outputs s s1 hstar :
  wf ic cc s ->
  shaped ic cc (Z.to_nat WEB_AUDIO_BLOCK_SIZE) inputs ->
  shaped ic cc (Z.to_nat WEB_AUDIO_BLOCK_SIZE) outputs ->
  WEB_AUDIO_BLOCK_SIZE <= _hopSize s ->
  _hopSize s <= _readPointer s ->
  _hopSize s <= _writePointer s + WEB_AUDIO_BLOCK_SIZE ->
  _inputBuffer inputs s = Normal tt s1 ->
  processBuffered (_inputBuffers s1) (_outputBuffers s1) (heap_of s1)
  = Returns true hstar ->
  same_lengths (heap_of s1) hstar ->
  process processBuffered inputs outputs s
  = Normal (slice_at 0 (deref hstar (_outputBuffers s)), true)
           (drained (reset (invoked hstar s1)))
  /\ wf ic cc (drained (reset (invoked hstar s1))).
Proof.
  intros Hwf Hins Houts Hhop Hrp Hwp E Hhook Hkeep.
  destruct (_inputBuffer_ok _ _ _ _ (proj1 Hwf) Hins Hhop)
    as (h & E' & Hlen & Htail).
  rewrite E in E'. injection E' as ->.
  assert (wf ic cc (reset (invoked hstar (accumulated h s)))) as Hwf'.
  { apply (wf_frame ic cc s); [done..| |done]. simpl.
    by eapply same_lengths_trans. }
  split; [|by apply (wf_frame ic cc _ _ eq_refl eq_refl eq_refl
                       (same_lengths_refl _) Hwf')].
  rewrite (process_ready _ _ _ _ _ E) by (simpl; lia).
  unfold bind at 1, call_processBuffered. rewrite Hhook. simpl negb. cbv iota.
  transitivity ((outs <- _outputShiftTo outputs ;; ret (outs, true))
                  (reset (invoked hstar (accumulated h s)))); [done|].
  erewrite bind_Normal; [|eapply _outputShiftTo_ok;
    [exact (proj2 Hwf')|exact Houts|simpl; lia|simpl; lia]].
  done.
Qed.

End Steps.

(** ** Allocation *)

Lemma set_heap_set_heap h h' s : set_heap h (set_heap h' s) = set_heap h s.
Proof. done. Qed.

Lemma alloc_row cc :
  forall s,
    0 <= _hopSize s ->
    Array_from_nat cc (hop <- gets _hopSize ;; Float32Array_new hop) s
    = Normal (seq (length (heap_of s)) cc)
             (set_heap (heap_of s ++ replicate cc (zeros (_hopSize s))) s).
Proof.
  induction cc as [|cc IH]; intros s Hhop; simpl.
  - unfold ret. rewrite app_nil_r. by destruct s.
  - unfold bind at 1. unfold bind at 1, gets, Float32Array_new.
    destruct (Z.ltb_spec (_hopSize s) 0); [lia|].
    unfold bind at 1. rewrite IH by done. unfold ret. simpl.
    rewrite length_app, set_heap_set_heap, <- app_assoc. simpl.
    by rewrite Nat.add_1_r.
Qed.

Lemma alloc_rows cc ic :
  forall s,
    0 <= _hopSize s ->
    Array_from_nat ic
      (Array_from (Z.of_nat cc) (hop <- gets _hopSize ;; Float32Array_new hop)) s
    = Normal (rows (length (heap_of s)) ic cc)
             (set_heap (heap_of s ++ replicate (ic * cc) (zeros (_hopSize s)))
                s).
Proof.
  induction ic as [|ic IH]; intros s Hhop; simpl.
  - unfold ret. rewrite app_nil_r. by destruct s.
  - unfold bind at 1, Array_from at 1. rewrite Nat2Z.id, alloc_row by done.
    unfold bind at 1. rewrite IH by done. unfold ret. simpl.
    rewrite length_app, length_replicate, set_heap_set_heap, <- app_assoc.
    by rewrite replicate_add.
Qed.

Lemma rows_range cc ic :
  forall base,
    length (rows base ic cc) = ic /\
    Forall (fun row => length row = cc /\
              Forall (fun l => base <= l < base + ic * cc)%nat row)
           (rows base ic cc).
Proof.
  induction ic as [|ic IH]; intros base; simpl; [done|].
  destruct (IH (base + cc)%nat) as [Hlen Hrows]. split; [by rewrite Hlen|].
  constructor.
  - split; [by rewrite length_seq|]. apply Forall_seq. lia.
  - eapply Forall_impl; [exact Hrows|]. intros row [Hcc Hrow]. split; [done|].
    eapply Forall_impl; [exact Hrow|]. simpl. lia.
Qed.

Lemma lookup_fresh (h : heap) n z l :
  (length h <= l < length h + n)%nat -> (h ++ replicate n z) !! l = Some z.
Proof.
  intros Hl. rewrite lookup_app_r by lia. apply lookup_replicate_2. lia.
Qed.

Lemma rows_buffers (h : heap) ic cc z :
  buffers (h ++ replicate (ic * cc) z) ic cc (length z) (rows (length h) ic cc).
Proof.
  destruct (rows_range cc ic (length h)) as [Hlen Hrows]. split; [done|].
  eapply Forall_impl; [exact Hrows|]. intros row [Hcc Hrow]. split; [done|].
  eapply Forall_impl; [exact Hrow|]. intros l Hl. simpl in *.
  by rewrite lookup_fresh.
Qed.

Lemma map_constant {A B} (f : A -> B) z l :
  Forall (fun x => f x = z) l -> map f l = replicate (length l) z.
Proof. induction 1; simpl; congruence. Qed.

Lemma rows_deref (h : heap) ic cc z :
  deref (h ++ replicate (ic * cc) z) (rows (length h) ic cc)
  = replicate ic (replicate cc z).
Proof.
  destruct (rows_range cc ic (length h)) as [Hlen Hrows]. unfold deref.
  rewrite <- Hlen at 2. apply map_constant.
  eapply Forall_impl; [exact Hrows|]. intros row [Hcc Hrow]. simpl.
  replace (replicate cc z) with (replicate (length row) z) by (by rewrite Hcc).
  apply map_constant.
  eapply Forall_impl; [exact Hrow|]. intros l Hl. simpl in *.
  by rewrite lookup_fresh.
Qed.

Lemma setInputAndChannelCount_ok inputCount channelCount s :
  0 <= _hopSize s ->
  setInputAndChannelCount inputCount channelCount s
  = Normal tt (reconfigured inputCount channelCount s).
Proof.
  intros Hhop. unfold setInputAndChannelCount. unfold bind at 1.
  replace (Array_from channelCount
             (hop <- gets _hopSize ;; Float32Array_new hop))
    with (Array_from (Z.of_nat (Z.to_nat channelCount))
             (hop <- gets _hopSize ;; Float32Array_new hop))
    by (unfold Array_from; by rewrite Nat2Z.id).
  unfold Array_from at 1. by rewrite alloc_rows.
Qed.

Lemma new_ok hopSize inputCount channelCount :
  0 <= hopSize ->
  new hopSize inputCount channelCount
  = Normal tt (fresh hopSize inputCount channelCount).
Proof.
  intros Hhop. unfold new, constructor. unfold bind at 1, modify at 1.
  unfold bind at 1. by rewrite setInputAndChannelCount_ok.
Qed.

Lemma reconfigured_wf inputCount channelCount s :
  wf (Z.to_nat inputCount) (Z.to_nat channelCount)
     (reconfigured inputCount channelCount s).
Proof.
  unfold wf, reconfigured. simpl.
  replace (Z.to_nat (_hopSize s)) with (length (zeros (_hopSize s)))
    by apply length_replicate.
  split; apply rows_buffers.
Qed.

Lemma fresh_wf hopSize inputCount channelCount :
  wf (Z.to_nat (default 0 inputCount)) (Z.to_nat (default 0 channelCount))
     (fresh hopSize inputCount channelCount).
Proof.
  eapply wf_frame; [..|apply reconfigured_wf]; done.
Qed.

(** C9: [setInputAndChannelCount(inputCount, channelCount)] puts, on both
    sides, a buffer set of the new shape
    [inputCount][channelCount][hopSize] whose samples are all zero and whose
    arrays are newly allocated, and leaves the read pointer and the write
    pointer as they were. *)
Theorem setInputAndChannelCount_reallocates inputCount channelCount s :
  0 <= _hopSize s ->
  exists s',
    setInputAndChannelCount inputCount channelCount s = Normal tt s'
    /\ deref (heap_of s') (_inputBuffers s')
       = replicate (Z.to_nat inputCount)
           (replicate (Z.to_nat channelCount)
              (replicate (Z.to_nat (_hopSize s)) 0))
    /\ deref (heap_of s') (_outputBuffers s')
       = replicate (Z.to_nat inputCount)
           (replicate (Z.to_nat channelCount)
              (replicate (Z.to_nat (_hopSize s)) 0))
    /\ wf (Z.to_nat inputCount) (Z.to_nat channelCount) s'
    /\ Forall (Forall (fun l => length (heap_of s) <= l)%nat) (_inputBuffers s')
    /\ _readPointer s' = _readPointer s
    /\ _writePointer s' = _writePointer s
    /\ _hopSize s' = _hopSize s.
Proof.
  intros Hhop. exists (reconfigured inputCount channelCount s).
  split; [by apply setInputAndChannelCount_ok|].
  split; [apply rows_deref|]. split; [apply rows_deref|].
  split; [apply reconfigured_wf|]. split; [|done]. simpl.
  destruct (rows_range (Z.to_nat channelCount) (Z.to_nat inputCount)
              (length (heap_of s))) as [_ Hrows].
  eapply Forall_impl; [exact Hrows|]. intros row [_ Hrow].
  eapply Forall_impl; [exact Hrow|]. simpl. lia.
Qed.

(** C8: construction with [(hopSize, inputCount, channelCount)] returns a
    processor whose accumulation and drain buffer sets have the shape
    [inputCount][channelCount][hopSize] with every sample zero, whose write
    pointer is 0 and whose read pointer is [hopSize]. *)
Theorem construction_establishes hopSize inputCount channelCount :
  0 <= hopSize ->
  exists s,
    new hopSize (Some inputCount) (Some channelCount) = Normal tt s
    /\ deref (heap_of s) (_inputBuffers s)
       = replicate (Z.to_nat inputCount)
           (replicate (Z.to_nat channelCount)
              (replicate (Z.to_nat hopSize) 0))
    /\ deref (heap_of s) (_outputBuffers s)
       = replicate (Z.to_nat inputCount)
           (replicate (Z.to_nat channelCount)
              (replicate (Z.to_nat hopSize) 0))
    /\ wf (Z.to_nat inputCount) (Z.to_nat channelCount) s
    /\ _writePointer s = 0
    /\ _readPointer s = hopSize
    /\ _hopSize s = hopSize.
Proof.
  intros Hhop. exists (fresh hopSize (Some inputCount) (Some channelCount)).
  split; [by apply new_ok|].
  split; [apply (rows_deref [])|]. split; [apply (rows_deref [])|].
  split; [apply (fresh_wf hopSize (Some inputCount) (Some channelCount))|].
  done.
Qed.

(** ** Drain before processing *)

Lemma _inputBuffer_trace inputs s s1 :
  _inputBuffer inputs s = Normal tt s1 ->
  trace s1 = EvAccumulate :: trace s
  /\ _readPointer s1 = _readPointer s
  /\ _writePointer s1 = _writePointer s + WEB_AUDIO_BLOCK_SIZE
  /\ _hopSize s1 = _hopSize s
  /\ _inputBuffers s1 = _inputBuffers s
  /\ _outputBuffers s1 = _outputBuffers s.
Proof. intros E. by rewrite (_inputBuffer_Normal _ _ _ E). Qed.

(** C3: when the read pointer is below the hop size after the accumulate
    step, whatever the write pointer, [process] is the drain copy followed by
    [return true]: [processBuffered] is not called, a call that returns
    returns [true] with the read pointer advanced by one block, and on an
    output block of the configured shape it returns the block of the drain
    buffers that starts at the read pointer. *)
Theorem drain_has_priority processBuffered inputs outputs s s1 :
  _inputBuffer inputs s = Normal tt s1 ->
  _readPointer s1 < _hopSize s1 ->
  process processBuffered inputs outputs s
  = (outs <- _outputShiftTo outputs ;; ret (outs, true)) s1
  /\ invocations
       (trace (final_state (process processBuffered inputs outputs s)))
     = invocations (trace s)
  /\ (forall r s',
        process processBuffered inputs outputs s = Normal r s' ->
        r.2 = true /\ s' = drained s1
        /\ _readPointer s' = _readPointer s + WEB_AUDIO_BLOCK_SIZE)
  /\ (forall ic cc,
        wf ic cc s1 ->
        shaped ic cc (Z.to_nat WEB_AUDIO_BLOCK_SIZE) outputs ->
        0 <= _readPointer s1 ->
        _readPointer s1 + WEB_AUDIO_BLOCK_SIZE <= _hopSize s1 ->
        process processBuffered inputs outputs s
        = Normal (slice_at (_readPointer s1)
                    (deref (heap_of s1) (_outputBuffers s1)), true)
                 (drained s1)).
Proof.
  intros E Hrp.
  pose proof (process_pending processBuffered _ outputs _ _ E Hrp) as Hp.
  destruct (_inputBuffer_trace _ _ _ E) as (Htr & Hrp' & _).
  pose proof (_outputShiftTo_final outputs s1) as Hshift.
  split; [done|]. rewrite Hp. unfold bind, ret. split; [|split].
  - destruct (_outputShiftTo outputs s1) as [outs s2|e s2];
      simpl in *; subst s2; simpl; rewrite Htr; reflexivity.
  - intros r s'. destruct (_outputShiftTo outputs s1); [|done].
    intros [= <- <-]. simpl in *. subst. simpl. split_and!; [done..|lia].
  - intros ic cc [_ Hout] Hshape Hrp0 Hfit.
    by rewrite (_outputShiftTo_ok _ _ _ _ Hout Hshape Hrp0 Hfit).
Qed.

(** ** A failing hook *)

(** C5: when a full hop has accumulated, no output is pending and
    [processBuffered] returns [false], [process] returns [false], the output
    block is the one it was given, no drain copy is made, and the pointers
    keep the values they have after the accumulate step. *)
Theorem failure_stops processBuffered inputs outputs s s1 h :
  _inputBuffer inputs s = Normal tt s1 ->
  _hopSize s1 <= _readPointer s1 ->
  _hopSize s1 <= _writePointer s1 ->
  processBuffered (_inputBuffers s1) (_outputBuffers s1) (heap_of s1)
  = Returns false h ->
  process processBuffered inputs outputs s
  = Normal (outputs, false) (invoked h s1)
  /\ drains (trace (invoked h s1)) = drains (trace s)
  /\ _readPointer (invoked h s1) = _readPointer s
  /\ _writePointer (invoked h s1) = _writePointer s + WEB_AUDIO_BLOCK_SIZE.
Proof.
  intros E Hrp Hwp Hhook.
  destruct (_inputBuffer_trace _ _ _ E) as (Htr & Hrp' & Hwp' & _).
  split.
  - rewrite (process_ready _ _ _ _ _ E Hrp Hwp).
    unfold bind, call_processBuffered. by rewrite Hhook.
  - simpl. by rewrite Htr.
Qed.

(** ** Every way [process] can end *)

(** A case analysis of [process]: the eight ways a call can end, each with
    the state it leaves. *)
Lemma process_final processBuffered inputs outputs s
      (Q : completion (blocks * bool) -> Prop) :
  (forall e h, Q (Throw e (set_heap h s))) ->
  (forall h o, _readPointer s < _hopSize s ->
               Q (Normal (o, true) (drained (accumulated h s)))) ->
  (forall h e, _readPointer s < _hopSize s ->
               Q (Throw e (accumulated h s))) ->
  (forall h, _hopSize s <= _readPointer s ->
             _writePointer s + WEB_AUDIO_BLOCK_SIZE < _hopSize s ->
             Q (Normal (outputs, true) (accumulated h s))) ->
  (forall h h', _hopSize s <= _readPointer s ->
                _hopSize s <= _writePointer s + WEB_AUDIO_BLOCK_SIZE ->
                Q (Throw Error (invoked h' (accumulated h s)))) ->
  (forall h h', _hopSize s <= _readPointer s ->
                _hopSize s <= _writePointer s + WEB_AUDIO_BLOCK_SIZE ->
                Q (Normal (outputs, false) (invoked h' (accumulated h s)))) ->
  (forall h h' o, _hopSize s <= _readPointer s ->
                  _hopSize s <= _writePointer s + WEB_AUDIO_BLOCK_SIZE ->
                  Q (Normal (o, true)
                       (drained (reset (invoked h' (accumulated h s)))))) ->
  (forall h h' e, _hopSize s <= _readPointer s ->
                  _hopSize s <= _writePointer s + WEB_AUDIO_BLOCK_SIZE ->
                  Q (Throw e (reset (invoked h' (accumulated h s))))) ->
  Q (process processBuffered inputs outputs s).
Proof.
  intros Q1 Q2 Q3 Q4 Q5 Q6 Q7 Q8.
  pose proof (_inputBuffer_final inputs s) as Hacc.
  destruct (_inputBuffer inputs s) as [[] s1|e s1] eqn:E.
  2:{ rewrite (process_throws_early _ _ _ _ _ _ E), Hacc. apply Q1. }
  fold (accumulated (heap_of s1) s) in Hacc.
  set (h := heap_of s1) in *. clearbody h. subst s1.
  destruct (Z.lt_ge_cases (_readPointer s) (_hopSize s)) as [Hrp|Hrp].
  { rewrite (process_pending _ _ _ _ _ E) by done.
    pose proof (_outputShiftTo_final outputs (accumulated h s)) as Hshift.
    unfold bind, ret.
    destruct (_outputShiftTo outputs (accumulated h s)) as [o s2|e s2];
      subst s2; [by apply Q2 | by apply Q3]. }
  destruct (Z.lt_ge_cases (_writePointer s + WEB_AUDIO_BLOCK_SIZE) (_hopSize s))
    as [Hwp|Hwp].
  { rewrite (process_waiting _ _ _ _ _ E) by done. by apply Q4. }
  rewrite (process_ready _ _ _ _ _ E) by done.
  unfold bind at 1, call_processBuffered.
  destruct (processBuffered _ _ _) as [[] h'|h'].
  - change (Q ((outs <- _outputShiftTo outputs ;; ret (outs, true))
                 (reset (invoked h' (accumulated h s))))).
    pose proof (_outputShiftTo_final outputs
                  (reset (invoked h' (accumulated h s)))) as Hshift.
    unfold bind, ret.
    destruct (_outputShiftTo outputs _) as [o s2|e s2];
      subst s2; [by apply Q7 | by apply Q8].
  - by apply Q6.
  - by apply Q5.
Qed.

(** A call that finds a full hop and nothing pending calls the hook, once,
    however the call ends. *)
Lemma process_invokes processBuffered inputs outputs s s1 :
  _inputBuffer inputs s = Normal tt s1 ->
  _hopSize s1 <= _readPointer s1 ->
  _hopSize s1 <= _writePointer s1 ->
  invocations (trace (final_state (process processBuffered inputs outputs s)))
  = invocations (trace s)
    ++ [(deref (heap_of s1) (_inputBuffers s1),
         deref (heap_of s1) (_outputBuffers s1))].
Proof.
  intros E Hrp Hwp. rewrite (process_ready _ _ _ _ _ E Hrp Hwp).
  destruct (_inputBuffer_trace _ _ _ E) as (Htr & _).
  unfold bind at 1, call_processBuffered.
  destruct (processBuffered _ _ _) as [[] h'|h']; simpl; try by rewrite Htr.
  change (invocations (trace (final_state
            ((outs <- _outputShiftTo outputs ;; ret (outs, true))
               (reset (invoked h' s1)))))
          = invocations (trace s)
            ++ [(deref (heap_of s1) (_inputBuffers s1),
                 deref (heap_of s1) (_outputBuffers s1))]).
  pose proof (_outputShiftTo_final outputs (reset (invoked h' s1))) as Hshift.
  unfold bind, ret.
  destruct (_outputShiftTo outputs _) as [o s2|e s2];
    subst s2; simpl; by rewrite Htr.
Qed.

(** ** Runs of calls *)

Lemma run_cons_true processBuffered inputs outputs rest s o s' :
  process processBuffered inputs outputs s = Normal (o, true) s' ->
  run processBuffered ((inputs, outputs) :: rest) s
  = (rs <- run processBuffered rest ;; ret (o :: rs.1, rs.2)) s'.
Proof. intros E. simpl. by rewrite (bind_Normal _ _ _ _ _ E). Qed.

Section Waiting.

Variable processBuffered : hook.

(** An invariant [J] of the states and a condition [P] on the input blocks
    under which the accumulate step returns. *)
Variable J : state -> Prop.
Variable P : blocks -> Prop.
Hypothesis accepts :
  forall s inputs, J s -> P inputs ->
    exists h, _inputBuffer inputs s = Normal tt (accumulated h s)
              /\ J (accumulated h s).

(** While the hop is not full and nothing is pending, the calls return
    [true] and hand the output blocks back as they came. *)
Lemma run_waiting calls :
  forall s,
    J s ->
    _hopSize s <= _readPointer s ->
    _writePointer s + WEB_AUDIO_BLOCK_SIZE * Z.of_nat (length calls)
      < _hopSize s ->
    Forall (fun c => P c.1) calls ->
    exists s',
      run processBuffered calls s = Normal (snd <$> calls, true) s'
      /\ J s' /\ waited (length calls) s s'.
Proof.
  induction calls as [|[inputs outputs] rest IH]; intros s HJ Hrp Hwp HP.
  - exists s. split; [done|]. split; [done|].
    unfold waited, WEB_AUDIO_BLOCK_SIZE. split_and!; try done. simpl. lia.
  - apply Forall_cons in HP as [Hin HP]. simpl in Hin. cbn [length] in Hwp.
    destruct (accepts s inputs HJ Hin) as (h & E & HJ').
    assert (process processBuffered inputs outputs s
            = Normal (outputs, true) (accumulated h s)) as Ep.
    { apply process_waiting; [done|done|].
      simpl. unfold WEB_AUDIO_BLOCK_SIZE in *. lia. }
    destruct (IH (accumulated h s) HJ') as (s' & Er & HJ'' & Hw);
      [done|simpl; unfold WEB_AUDIO_BLOCK_SIZE in *; lia|done|].
    exists s'. rewrite (run_cons_true _ _ _ _ _ _ _ Ep).
    rewrite (bind_Normal _ _ _ _ _ Er). split; [done|]. split; [done|].
    destruct Hw as (? & ? & ? & ? & Hw' & ? & ?).
    unfold waited. split_and!; try done.
    cbn [length]. simpl in Hw'. unfold WEB_AUDIO_BLOCK_SIZE in *. lia.
Qed.

End Waiting.

Lemma accepts_shaped ic cc s inputs :
  wf ic cc s /\ WEB_AUDIO_BLOCK_SIZE <= _hopSize s ->
  shaped ic cc (Z.to_nat WEB_AUDIO_BLOCK_SIZE) inputs ->
  exists h, _inputBuffer inputs s = Normal tt (accumulated h s)
            /\ (wf ic cc (accumulated h s)
                /\ WEB_AUDIO_BLOCK_SIZE <= _hopSize (accumulated h s)).
Proof.
  intros [Hwf Hhop] Hin.
  destruct (_inputBuffer_ok _ _ _ _ (proj1 Hwf) Hin Hhop) as (h & E & Hlen & _).
  exists h. split; [done|]. split; [by apply wf_accumulated | done].
Qed.

Lemma accepts_empty s inputs :
  _inputBuffers s = [] -> True ->
  exists h, _inputBuffer inputs s = Normal tt (accumulated h s)
            /\ _inputBuffers (accumulated h s) = [].
Proof.
  intros Hempty _. exists (heap_of s). split; [|done].
  unfold _inputBuffer, bind, gets. rewrite Hempty. simpl.
  unfold modify, accumulated. by destruct s.
Qed.

Section Draining.

Variable processBuffered : hook.
Variables ic cc : nat.
Variable n : Z.
Variable hstar : heap.

(** After a processing step that left the store [hstar], the calls drain the
    blocks of [hstar] one after the other, whatever they accumulate
    meanwhile. *)
Lemma run_draining calls :
  forall s (k : nat),
    wf ic cc s ->
    same_tails hstar (heap_of s) ->
    _hopSize s = n * WEB_AUDIO_BLOCK_SIZE ->
    _readPointer s = Z.of_nat k * WEB_AUDIO_BLOCK_SIZE ->
    (1 <= k)%nat ->
    Z.of_nat k + Z.of_nat (length calls) = n ->
    Forall (fun c => shaped ic cc (Z.to_nat WEB_AUDIO_BLOCK_SIZE) c.1 /\
                     shaped ic cc (Z.to_nat WEB_AUDIO_BLOCK_SIZE) c.2) calls ->
    exists s',
      run processBuffered calls s
      = Normal (map (fun q => slice_at (Z.of_nat q * WEB_AUDIO_BLOCK_SIZE)
                                 (deref hstar (_outputBuffers s)))
                    (seq k (length calls)), true) s'
      /\ invocations (trace s') = invocations (trace s)
      /\ _readPointer s' = _hopSize s'.
Proof.
  induction calls as [|[inputs outputs] rest IH];
    intros s k Hwf Htails Hhop Hrp Hk Hn Hshapes.
  - exists s. simpl in *. split_and!; try done. rewrite Hhop, Hrp. f_equal. lia.
  - apply Forall_cons in Hshapes as [[Hin Hout] Hshapes]. simpl in Hin, Hout, Hn.
    assert (0 < WEB_AUDIO_BLOCK_SIZE) as Hb by done.
    destruct (step_draining processBuffered ic cc inputs outputs s)
      as (h & Ep & Hlen & Htail); [done|done|done|lia|nia|].
    assert (same_tails hstar h) as Htails'
      by (by eapply same_tails_trans).
    rewrite (slice_at_same_tails h hstar) in Ep; [|done|nia].
    destruct (IH (drained (accumulated h s)) (S k)) as (s' & Er & Hinv & Hend).
    { by apply (wf_frame ic cc s). }
    { done. }
    { done. }
    { simpl. lia. }
    { lia. }
    { lia. }
    { done. }
    exists s'. rewrite (run_cons_true _ _ _ _ _ _ _ Ep).
    rewrite (bind_Normal _ _ _ _ _ Er). unfold ret. simpl.
    split; [by rewrite Hrp|]. done.
Qed.

End Draining.

Lemma channel_deref_length (h : heap) ic cc len bufs i j :
  buffers h ic cc len bufs -> (length (channel i j (deref h bufs)) <= len)%nat.
Proof.
  intros Hbufs. unfold channel, deref. rewrite list_lookup_fmap.
  destruct (bufs !! i) as [row|] eqn:Hrow; simpl; [|lia].
  rewrite list_lookup_fmap.
  destruct (row !! j) as [l|] eqn:Hl; simpl; [|lia].
  destruct (buffers_lookup _ _ _ _ _ _ _ _ _ Hbufs Hrow Hl) as (a & -> & <-).
  done.
Qed.

(** The windows at 0, 1, 2, ... blocks of a channel, joined in that order,
    are the channel. *)
Lemma concat_windows (x : blocks) i j (m : nat) :
  (length (channel i j x) <= m * Z.to_nat WEB_AUDIO_BLOCK_SIZE)%nat ->
  concat (channel i j <$>
            map (fun q => slice_at (Z.of_nat q * WEB_AUDIO_BLOCK_SIZE) x)
                (seq 0 m))
  = channel i j x.
Proof.
  intros Hlen. rewrite <- list_fmap_compose.
  erewrite (list_fmap_ext _ (fun q =>
    take (Z.to_nat WEB_AUDIO_BLOCK_SIZE)
         (drop (q * Z.to_nat WEB_AUDIO_BLOCK_SIZE) (channel i j x)))).
  - rewrite (concat_blocks _ _ m 0). simpl. by apply take_ge.
  - intros k q _. simpl. rewrite channel_slice_at. do 2 f_equal.
    unfold WEB_AUDIO_BLOCK_SIZE. lia.
Qed.

(** ** A whole hop is delivered *)

(** C4: for a hop size of [n] blocks, [n > 0], take a call that completes a
    hop with nothing pending and whose [processBuffered] succeeds, leaving
    the store [hstar], and the [n - 1] calls after it.  The [n] output
    blocks they deliver are, in call order, the windows of the drain buffers
    of [hstar] at 0, 1, ..., [n - 1] blocks, so that on every channel their
    concatenation is the whole content [processBuffered] left there; no
    other call of [processBuffered] happens meanwhile. *)
Theorem drain_delivers_whole_hop
        processBuffered ic cc n s inputs outputs rest s1 hstar :
  0 < n ->
  _hopSize s = n * WEB_AUDIO_BLOCK_SIZE ->
  wf ic cc s ->
  _hopSize s <= _readPointer s ->
  _hopSize s <= _writePointer s + WEB_AUDIO_BLOCK_SIZE ->
  Z.of_nat (length rest) = n - 1 ->
  Forall (fun c => shaped ic cc (Z.to_nat WEB_AUDIO_BLOCK_SIZE) c.1 /\
                   shaped ic cc (Z.to_nat WEB_AUDIO_BLOCK_SIZE) c.2)
         ((inputs, outputs) :: rest) ->
  _inputBuffer inputs s = Normal tt s1 ->
  processBuffered (_inputBuffers s1) (_outputBuffers s1) (heap_of s1)
  = Returns true hstar ->
  same_lengths (heap_of s1) hstar ->
  exists delivered s',
    run processBuffered ((inputs, outputs) :: rest) s
    = Normal (delivered, true) s'
    /\ delivered
       = map (fun q => slice_at (Z.of_nat q * WEB_AUDIO_BLOCK_SIZE)
                         (deref hstar (_outputBuffers s)))
             (seq 0 (Z.to_nat n))
    /\ (forall i j,
          concat (channel i j <$> delivered)
          = channel i j (deref hstar (_outputBuffers s)))
    /\ invocations (trace s')
       = invocations (trace s)
         ++ [(deref (heap_of s1) (_inputBuffers s1),
              deref (heap_of s1) (_outputBuffers s1))]
    /\ _readPointer s' = _hopSize s'.
Proof.
  intros Hn Hhop Hwf Hrp Hwp Hrest Hshapes E Hhook Hkeep.
  apply Forall_cons in Hshapes as [[Hin Hout] Hshapes]. simpl in Hin, Hout.
  assert (0 < WEB_AUDIO_BLOCK_SIZE) as Hb by done.
  destruct (_inputBuffer_trace _ _ _ E) as (Htr & _ & _ & Hhop1 & _ & Hout1).
  destruct (step_processing processBuffered ic cc inputs outputs s s1 hstar)
    as [Ep Hwf2]; [done|done|done|nia|done|done|done|done|done|].
  destruct (run_draining processBuffered ic cc n hstar rest
              (drained (reset (invoked hstar s1))) 1)
    as (s' & Er & Hinv & Hend);
    [done|done|simpl; lia|simpl; lia|lia|lia|done|].
  set (x := deref hstar (_outputBuffers s)) in *.
  assert (map (fun q => slice_at (Z.of_nat q * WEB_AUDIO_BLOCK_SIZE) x)
              (seq 0 (Z.to_nat n))
          = slice_at 0 x
            :: map (fun q => slice_at (Z.of_nat q * WEB_AUDIO_BLOCK_SIZE) x)
                   (seq 1 (length rest))) as Hdel.
  { replace (Z.to_nat n) with (S (length rest)) by lia. done. }
  eexists _, s'. rewrite (run_cons_true _ _ _ _ _ _ _ Ep).
  rewrite (bind_Normal _ _ _ _ _ Er). unfold ret. simpl.
  rewrite Hout1. fold x. rewrite <- Hdel.
  split; [done|]. split; [done|]. split; [|split; [|done]].
  - intros i j. apply concat_windows.
    destruct Hwf2 as [_ Hbufs]. simpl in Hbufs. rewrite Hout1 in Hbufs.
    pose proof (channel_deref_length _ _ _ _ _ i j Hbufs) as Hlen.
    fold x in Hlen. rewrite Hhop1, Hhop in Hlen.
    unfold WEB_AUDIO_BLOCK_SIZE in *. lia.
  - rewrite Hinv. simpl. rewrite Htr, Hout1. reflexivity.
Qed.

(** ** Pointer invariants *)

Lemma cycle_inv_in_bounds n s : cycle_inv n s -> in_bounds s.
Proof.
  unfold cycle_inv, in_bounds, WEB_AUDIO_BLOCK_SIZE. lia.
Qed.

Lemma process_cycle processBuffered n inputs outputs s :
  0 < n -> cycle_inv n s ->
  in_bounds (final_state (process processBuffered inputs outputs s))
  /\ _hopSize (final_state (process processBuffered inputs outputs s))
     = _hopSize s
  /\ forall o s',
       process processBuffered inputs outputs s = Normal (o, true) s' ->
       cycle_inv n s'.
Proof.
  intros Hn (Hhop & Hwp & Hrp & Hcount).
  apply process_final;
    intros; (split; [|split; [done|]]);
    try (intros ? ? [= <- <-]); try done;
    unfold in_bounds, cycle_inv in *; simpl;
    unfold WEB_AUDIO_BLOCK_SIZE in *; lia.
Qed.

Lemma running_cycle processBuffered hopSize inputCount channelCount n s :
  0 < n -> hopSize = n * WEB_AUDIO_BLOCK_SIZE ->
  running processBuffered hopSize inputCount channelCount s ->
  cycle_inv n s /\ _hopSize s = hopSize.
Proof.
  intros Hn Hhop Hrun. induction Hrun as [s E|s inputs outputs outs s' _ IH E].
  - rewrite new_ok in E by (unfold WEB_AUDIO_BLOCK_SIZE in *; lia).
    injection E as <-. unfold cycle_inv. simpl.
    unfold WEB_AUDIO_BLOCK_SIZE in *. lia.
  - destruct IH as [Hinv Hsame].
    destruct (process_cycle processBuffered n inputs outputs s Hn Hinv)
      as (_ & Hhop' & Hnext).
    rewrite E in Hhop'. simpl in Hhop'. split; [by eapply Hnext|congruence].
Qed.

(** Between two calls, a pending drain has a whole block left: the side
    conditions of the drain copy hold by themselves. *)
Lemma pending_block_in_range n s :
  cycle_inv n s -> _readPointer s < _hopSize s ->
  0 <= _readPointer s
  /\ _readPointer s + WEB_AUDIO_BLOCK_SIZE <= _hopSize s.
Proof. unfold cycle_inv, WEB_AUDIO_BLOCK_SIZE. lia. Qed.

(** C7: for a hop size of [n] blocks, [n > 0], in every state a processor
    goes through from its construction, under calls of [process] that stop
    once one has returned [false] (or thrown), both pointers are between 0
    and the hop size, and the write pointer is the block size times the
    number of accumulate steps since the pointers were last reset. *)
Theorem pointers_in_bounds processBuffered hopSize inputCount channelCount n s :
  0 < n -> hopSize = n * WEB_AUDIO_BLOCK_SIZE ->
  reachable processBuffered hopSize inputCount channelCount s ->
  _hopSize s = hopSize
  /\ 0 <= _writePointer s <= _hopSize s
  /\ 0 <= _readPointer s <= _hopSize s
  /\ _writePointer s
     = WEB_AUDIO_BLOCK_SIZE * Z.of_nat (since_reset (trace s)).
Proof.
  intros Hn Hhop [s' Hrun|s' inputs outputs Hrun];
    destruct (running_cycle _ _ _ _ _ _ Hn Hhop Hrun) as [Hinv Hsame].
  - split; [done|]. by eapply cycle_inv_in_bounds.
  - destruct (process_cycle processBuffered n inputs outputs s' Hn Hinv)
      as (Hb & Hhop' & _).
    split; [congruence|done].
Qed.

(** ** The first hop *)

(** C6, amended: for a freshly constructed processor with a hop size of [n]
    blocks, [n > 0], the first [n - 1] calls of [process] return [true]
    with the output block as it was given, without a drain copy and without
    calling [processBuffered].  The call after them, the one that completes
    the hop, calls [processBuffered], and when that succeeds the call
    delivers the first block of the drain buffers. *)
Theorem first_output_when_hop_completes
        processBuffered hopSize inputCount channelCount n calls :
  0 < n -> hopSize = n * WEB_AUDIO_BLOCK_SIZE ->
  Z.of_nat (length calls) = n - 1 ->
  Forall (fun c => shaped (Z.to_nat inputCount) (Z.to_nat channelCount)
                          (Z.to_nat WEB_AUDIO_BLOCK_SIZE) c.1) calls ->
  exists s0 s1,
    new hopSize (Some inputCount) (Some channelCount) = Normal tt s0
    /\ run processBuffered calls s0 = Normal (snd <$> calls, true) s1
    /\ drains (trace s1) = 0%nat
    /\ invocations (trace s1) = []
    /\ forall inputs outputs,
         shaped (Z.to_nat inputCount) (Z.to_nat channelCount)
                (Z.to_nat WEB_AUDIO_BLOCK_SIZE) inputs ->
         shaped (Z.to_nat inputCount) (Z.to_nat channelCount)
                (Z.to_nat WEB_AUDIO_BLOCK_SIZE) outputs ->
         exists s2,
           _inputBuffer inputs s1 = Normal tt s2
           /\ invocations
                (trace (final_state
                          (process processBuffered inputs outputs s1)))
              = [(deref (heap_of s2) (_inputBuffers s2),
                  deref (heap_of s2) (_outputBuffers s2))]
           /\ forall hstar,
                processBuffered (_inputBuffers s2) (_outputBuffers s2)
                                (heap_of s2) = Returns true hstar ->
                same_lengths (heap_of s2) hstar ->
                exists s3,
                  process processBuffered inputs outputs s1
                  = Normal (slice_at 0 (deref hstar (_outputBuffers s1)),
                            true) s3
                  /\ drains (trace s3) = 1%nat.
Proof.
  intros Hn Hhop Hlen Hshapes.
  assert (0 < WEB_AUDIO_BLOCK_SIZE) as Hb by done.
  set (s0 := fresh hopSize (Some inputCount) (Some channelCount)).
  pose proof (fresh_wf hopSize (Some inputCount) (Some channelCount)) as Hwf0.
  simpl in Hwf0. fold s0 in Hwf0.
  destruct (run_waiting processBuffered _ _
              (accepts_shaped (Z.to_nat inputCount) (Z.to_nat channelCount))
              calls s0)
    as (s1 & Er & [Hwf1 Hhop1] & Hw); [split; [done|simpl; nia]|done| |done|].
  { simpl. unfold WEB_AUDIO_BLOCK_SIZE in *. lia. }
  destruct Hw as (Hh & Hi & Ho & Hrp & Hwp & Hinv & Hdr).
  unfold s0 in Hh, Hrp, Hwp. simpl in Hh, Hrp, Hwp.
  exists s0, s1. split; [apply new_ok; nia|]. split; [done|].
  split; [by rewrite Hdr|]. split; [by rewrite Hinv|].
  intros inputs outputs Hin Hout.
  destruct (accepts_shaped _ _ s1 inputs (conj Hwf1 Hhop1) Hin)
    as (h & E & _).
  exists (accumulated h s1). split; [done|]. split.
  - rewrite (process_invokes _ _ _ _ _ E);
      [by rewrite Hinv | simpl; lia |].
    simpl. rewrite Hh, Hwp. simpl. unfold WEB_AUDIO_BLOCK_SIZE in *. lia.
  - intros hstar Hhook Hkeep.
    destruct (step_processing processBuffered _ _ inputs outputs s1
                (accumulated h s1) hstar Hwf1 Hin Hout Hhop1) as [Ep _];
      try done.
    + lia.
    + rewrite Hh, Hwp. unfold WEB_AUDIO_BLOCK_SIZE in *. lia.
    + eexists. split; [exact Ep|]. simpl. by rewrite Hdr.
Qed.

(** ** No inputs and no channels *)

(** C10: with the default counts the buffer sets are empty.  For a positive
    hop size, as long as fewer than [⌈hopSize / WEB_AUDIO_BLOCK_SIZE⌉]
    calls have been made, every call has returned [true], has advanced the
    write pointer by one block and has left the output block alone, and
    [processBuffered] has not been called; the call number
    [⌈hopSize / WEB_AUDIO_BLOCK_SIZE⌉] calls it, once, with empty input
    and output buffer sets. *)
Theorem default_counts_first_invocation processBuffered hopSize calls :
  0 < hopSize ->
  Z.of_nat (length calls)
    < (hopSize + WEB_AUDIO_BLOCK_SIZE - 1) / WEB_AUDIO_BLOCK_SIZE ->
  exists s0 s1,
    new hopSize None None = Normal tt s0
    /\ _inputBuffers s0 = [] /\ _outputBuffers s0 = []
    /\ run processBuffered calls s0 = Normal (snd <$> calls, true) s1
    /\ _writePointer s1 = WEB_AUDIO_BLOCK_SIZE * Z.of_nat (length calls)
    /\ invocations (trace s1) = []
    /\ (Z.of_nat (length calls)
        = (hopSize + WEB_AUDIO_BLOCK_SIZE - 1) / WEB_AUDIO_BLOCK_SIZE - 1 ->
        forall inputs outputs,
          invocations
            (trace (final_state (process processBuffered inputs outputs s1)))
          = [([], [])]).
Proof.
  intros Hhop Hlen.
  set (s0 := fresh hopSize None None).
  destruct (run_waiting processBuffered _ _ accepts_empty calls s0)
    as (s1 & Er & Hempty & Hw); [done|done| |by apply Forall_true|].
  { simpl. unfold WEB_AUDIO_BLOCK_SIZE in *.
    Z.div_mod_to_equations. lia. }
  destruct Hw as (Hh & Hi & Ho & Hrp & Hwp & Hinv & Hdr).
  unfold s0 in Hh, Hrp, Hwp. simpl in Hh, Hrp, Hwp.
  exists s0, s1. split; [apply new_ok; lia|]. split; [done|]. split; [done|].
  split; [done|]. split; [by rewrite Hwp|]. split; [by rewrite Hinv|].
  intros Hlast inputs outputs.
  destruct (accepts_empty s1 inputs Hempty I) as (h & E & _).
  rewrite (process_invokes _ _ _ _ _ E).
  - rewrite Hinv. simpl. by rewrite Hi, Ho.
  - simpl. lia.
  - simpl. rewrite Hh, Hwp. simpl. unfold WEB_AUDIO_BLOCK_SIZE in *.
    Z.div_mod_to_equations. lia.
Qed.

(** ** Concrete runs *)

(** Whenever [setInputAndChannelCount] returns, the two buffer sets hold
    the same references. *)
Lemma setInputAndChannelCount_aliases inputCount channelCount s s' :
  setInputAndChannelCount inputCount channelCount s = Normal tt s' ->
  _outputBuffers s' = _inputBuffers s'.
Proof.
  unfold setInputAndChannelCount. unfold bind at 1.
  destruct (Array_from _ _ s) as [bufs s2|e s2]; [|done].
  by intros [= <-].
Qed.

(** C1 at hop size 256 with one input of one channel, fed a block of ones
    and then a block of twos: [processBuffered] is called once, and the
    input buffer it is given holds the second block followed by zeros, not
    the first block followed by the second. *)
Theorem accumulation_overwrites_first_block :
  fst <$> invocations (trace (final_state
            (session passthrough 256 (Some 1) (Some 1)
               [([[ones]], [[silence]]); ([[twos]], [[silence]])])))
  = [ [[twos ++ silence]] ]
  /\ [[twos ++ silence]] <> [[ones ++ twos]].
Proof.
  split; [by vm_compute|]. intros H. vm_compute in H. discriminate H.
Qed.

(** C2 at hop size 256 with one input of one channel: the two buffer sets
    hold the same references, and a first call of [process], which only
    accumulates and does not call [processBuffered], turns the drain buffer
    from zeros into the input block followed by zeros. *)
Theorem accumulate_writes_drain_buffers :
  let s0 := final_state (new 256 (Some 1) (Some 1)) in
  let s1 := final_state (process passthrough [[ones]] [[silence]] s0) in
  _outputBuffers s0 = _inputBuffers s0
  /\ deref (heap_of s0) (_outputBuffers s0) = [[replicate 256 0]]
  /\ invocations (trace s1) = []
  /\ deref (heap_of s1) (_outputBuffers s1) = [[ones ++ silence]].
Proof. by vm_compute. Qed.

(** C6 as stated fails at hop size 256, two blocks: the second of the first
    two calls, the one that completes the hop, returns an output block that
    is no longer the silent one it was given. *)
Lemma hop_completing_call_delivers :
  let calls := [([[ones]], [[silence]]); ([[twos]], [[silence]])] in
  Z.of_nat (length calls) = 256 / WEB_AUDIO_BLOCK_SIZE
  /\ (exists s, session filling 256 (Some 1) (Some 1) calls
                = Normal ([ [[silence]]; [[replicate 128 7]] ], true) s)
  /\ [ [[silence]]; [[replicate 128 7]] ] <> snd <$> calls.
Proof.
  split; [done|]. split.
  - eexists. by vm_compute.
  - intros H. vm_compute in H. discriminate H.
Qed.

(** ** Instances *)

Lemma shaped_one_block (a : f32array) :
  length a = 128%nat -> shaped 1 1 128 [[a]].
Proof. intros H. repeat split; repeat constructor; done. Qed.

Lemma after_one_block_wf : wf 1 1 after_one_block.
Proof. vm_compute. repeat split; repeat constructor. Qed.

Lemma mid_drain_wf h : length h = 256%nat ->
  wf 1 1 (accumulated [h] mid_drain).
Proof.
  intros H. repeat split; repeat constructor; simpl; by rewrite H.
Qed.

Lemma construction_establishes_witness :
  exists s,
    new 512 (Some 1) (Some 2) = Normal tt s
    /\ deref (heap_of s) (_inputBuffers s) = [[replicate 512 0; replicate 512 0]]
    /\ _writePointer s = 0 /\ _readPointer s = 512.
Proof.
  destruct (construction_establishes 512 1 2) as (s & E & Hin & _ & _ & Hw & Hr & _);
    [lia|].
  exists s. split_and!; done.
Defined.

Lemma setInputAndChannelCount_reallocates_witness :
  exists s',
    setInputAndChannelCount 2 1 after_one_block = Normal tt s'
    /\ deref (heap_of s') (_outputBuffers s')
       = [[replicate 256 0]; [replicate 256 0]]
    /\ _readPointer s' = 256 /\ _writePointer s' = 128.
Proof.
  destruct (setInputAndChannelCount_reallocates 2 1 after_one_block)
    as (s' & E & _ & Hout & _ & _ & Hr & Hw & _); [by vm_compute|].
  exists s'. split_and!; done.
Defined.

Lemma drain_has_priority_witness :
  process failing [[ones]] [[silence]] mid_drain
  = Normal ([[replicate 128 7]], true)
           (drained (accumulated [ones ++ replicate 128 7] mid_drain)).
Proof.
  destruct (drain_has_priority failing [[ones]] [[silence]] mid_drain
              (accumulated [ones ++ replicate 128 7] mid_drain))
    as (_ & _ & _ & H); [by vm_compute|by vm_compute|].
  apply (H 1%nat 1%nat).
  - by apply mid_drain_wf.
  - by apply shaped_one_block.
  - by vm_compute.
  - by vm_compute.
Defined.

Lemma failure_stops_witness :
  process failing [[twos]] [[silence]] after_one_block
  = Normal ([[silence]], false)
           (invoked [twos ++ silence]
              (accumulated [twos ++ silence] after_one_block)).
Proof.
  apply (failure_stops failing [[twos]] [[silence]] after_one_block
           (accumulated [twos ++ silence] after_one_block)
           [twos ++ silence]); by vm_compute.
Defined.

Lemma drain_delivers_whole_hop_witness :
  exists delivered s',
    run passthrough [([[twos]], [[silence]]); ([[ones]], [[silence]])]
        after_one_block
    = Normal (delivered, true) s'
    /\ concat (channel 0 0 <$> delivered) = twos ++ silence.
Proof.
  destruct (drain_delivers_whole_hop passthrough 1 1 2 after_one_block
              [[twos]] [[silence]] [([[ones]], [[silence]])]
              (accumulated [twos ++ silence] after_one_block)
              [twos ++ silence])
    as (delivered & s' & E & _ & Hcat & _); try by vm_compute.
  - apply after_one_block_wf.
  - repeat constructor; by apply shaped_one_block.
  - exists delivered, s'. split; [done|]. by rewrite Hcat.
Defined.

Lemma first_output_when_hop_completes_witness :
  exists s0 s1,
    new 256 (Some 1) (Some 1) = Normal tt s0
    /\ run failing [([[ones]], [[silence]])] s0 = Normal ([[[silence]]], true) s1
    /\ drains (trace s1) = 0%nat.
Proof.
  destruct (first_output_when_hop_completes failing 256 1 1 2
              [([[ones]], [[silence]])])
    as (s0 & s1 & E0 & E1 & Hd & _); try by vm_compute.
  - repeat constructor; by apply shaped_one_block.
  - by exists s0, s1.
Defined.

Lemma pointers_in_bounds_witness :
  _hopSize after_one_block = 256
  /\ 0 <= _writePointer after_one_block <= _hopSize after_one_block
  /\ 0 <= _readPointer after_one_block <= _hopSize after_one_block
  /\ _writePointer after_one_block
     = WEB_AUDIO_BLOCK_SIZE
       * Z.of_nat (since_reset (trace after_one_block)).
Proof.
  apply (pointers_in_bounds passthrough 256 (Some 1) (Some 1) 2);
    [by vm_compute|by vm_compute|].
  apply reachable_running.
  eapply (running_process _ _ _ _ (fresh 256 (Some 1) (Some 1))
            [[ones]] [[silence]] [[silence]]).
  - apply running_new. by vm_compute.
  - by vm_compute.
Defined.

Lemma default_counts_first_invocation_witness :
  exists s0 s1,
    new 300 None None = Normal tt s0
    /\ run not_implemented [([[ones]], [[silence]]); ([[twos]], [[silence]])] s0
       = Normal ([ [[silence]]; [[silence]] ], true) s1
    /\ _writePointer s1 = 256
    /\ invocations
         (trace (final_state (process not_implemented [[ones]] [[silence]] s1)))
       = [([], [])].
Proof.
  destruct (default_counts_first_invocation not_implemented 300
              [([[ones]], [[silence]]); ([[twos]], [[silence]])])
    as (s0 & s1 & E0 & _ & _ & E1 & Hwp & _ & Hlast); try by vm_compute.
  exists s0, s1. split_and!; try done. by apply Hlast.
Defined.

(** * Further properties *)

(** ** What [process] leaves alone *)


(** ** Construction at the edges *)

Lemma alloc_row_any cc :
  forall s,
    0 <= _hopSize s \/ cc = 0%nat ->
    Array_from_nat cc (hop <- gets _hopSize ;; Float32Array_new hop) s
    = Normal (seq (length (heap_of s)) cc)
             (set_heap (heap_of s ++ replicate cc (zeros (_hopSize s))) s).
Proof.
  intros s [Hhop| ->]; [by apply alloc_row|].
  simpl. unfold ret. rewrite app_nil_r. by destruct s.
Qed.

Lemma alloc_rows_any cc ic :
  forall s,
    0 <= _hopSize s \/ cc = 0%nat ->
    Array_from_nat ic
      (Array_from (Z.of_nat cc) (hop <- gets _hopSize ;; Float32Array_new hop)) s
    = Normal (rows (length (heap_of s)) ic cc)
             (set_heap (heap_of s ++ replicate (ic * cc) (zeros (_hopSize s)))
                s).
Proof.
  induction ic as [|ic IH]; intros s Hhop; simpl.
  - unfold ret. rewrite app_nil_r. by destruct s.
  - unfold bind at 1, Array_from at 1. rewrite Nat2Z.id, alloc_row_any by done.
    unfold bind at 1. rewrite IH by done. unfold ret. simpl.
    rewrite length_app, length_replicate, set_heap_set_heap, <- app_assoc.
    by rewrite replicate_add.
Qed.

Lemma setInputAndChannelCount_any inputCount channelCount s :
  0 <= _hopSize s \/ inputCount <= 0 \/ channelCount <= 0 ->
  setInputAndChannelCount inputCount channelCount s
  = Normal tt (reconfigured inputCount channelCount s).
Proof.
  intros Hok. unfold setInputAndChannelCount. unfold bind at 1.
  replace (Array_from channelCount
             (hop <- gets _hopSize ;; Float32Array_new hop))
    with (Array_from (Z.of_nat (Z.to_nat channelCount))
             (hop <- gets _hopSize ;; Float32Array_new hop))
    by (unfold Array_from; by rewrite Nat2Z.id).
  unfold Array_from at 1.
  destruct (decide (inputCount <= 0)) as [Hic|Hic].
  - unfold reconfigured. replace (Z.to_nat inputCount) with 0%nat by lia.
    simpl. unfold bind, ret, modify, gets. simpl. by rewrite app_nil_r.
  - rewrite alloc_rows_any; [done|lia].
Qed.

Lemma new_any hopSize inputCount channelCount :
  0 <= hopSize \/ default 0 inputCount <= 0 \/ default 0 channelCount <= 0 ->
  new hopSize inputCount channelCount
  = Normal tt (fresh hopSize inputCount channelCount).
Proof.
  intros Hok. unfold new, constructor. unfold bind at 1, modify at 1.
  unfold bind at 1. by rewrite setInputAndChannelCount_any.
Qed.

Lemma new_throws hopSize inputCount channelCount :
  hopSize < 0 -> 0 < default 0 inputCount -> 0 < default 0 channelCount ->
  new hopSize inputCount channelCount
  = Throw RangeError (set_hopSize hopSize blank).
Proof.
  intros Hhop Hic Hcc. unfold new, constructor.
  unfold bind at 1, modify at 1. unfold bind at 1.
  unfold setInputAndChannelCount. unfold bind at 1.
  unfold Array_from at 1.
  destruct (Z.to_nat (default 0 inputCount)) as [|ic] eqn:Eic; [lia|]. simpl.
  unfold bind at 1, Array_from at 1.
  destruct (Z.to_nat (default 0 channelCount)) as [|cc] eqn:Ecc; [lia|]. simpl.
  unfold bind at 1. unfold bind at 1, gets, Float32Array_new. simpl.
  by destruct (Z.ltb_spec hopSize 0); [|lia].
Qed.

(** X10: a negative hop size with at least one input and one channel: the first
    [new Float32Array] throws a [RangeError] out of the constructor, before
    any buffer or pointer is assigned. *)
Theorem negative_hop_throws hopSize inputCount channelCount :
  hopSize < 0 -> 0 < inputCount -> 0 < channelCount ->
  new hopSize (Some inputCount) (Some channelCount)
  = Throw RangeError (set_hopSize hopSize blank).
Proof. intros. by apply new_throws. Qed.

(** X11: without an input, or without a channel, no typed array is created and
    the constructor returns for every hop size, a negative one included: the
    store is empty and the buffer sets are [inputCount] empty rows. *)
Theorem no_channel_no_array hopSize inputCount channelCount :
  inputCount <= 0 \/ channelCount <= 0 ->
  exists s,
    new hopSize (Some inputCount) (Some channelCount) = Normal tt s
    /\ heap_of s = []
    /\ concat (_inputBuffers s) = []
    /\ concat (_outputBuffers s) = []
    /\ length (_inputBuffers s) = Z.to_nat inputCount
    /\ _readPointer s = hopSize
    /\ _writePointer s = 0.
Proof.
  intros Hnone.
  exists (fresh hopSize (Some inputCount) (Some channelCount)).
  split; [apply new_any; simpl; lia|].
  assert (Z.to_nat inputCount * Z.to_nat channelCount = 0)%nat as Hzero by lia.
  destruct (rows_range (Z.to_nat channelCount) (Z.to_nat inputCount) 0)
    as [Hlen Hrows].
  assert (concat (rows 0 (Z.to_nat inputCount) (Z.to_nat channelCount)) = [])
    as Hcat.
  { clear Hlen. induction Hrows as [|row rs [Hcc Hin] _ IH]; [done|].
    simpl. rewrite IH, app_nil_r. destruct row as [|l row]; [done|].
    apply Forall_cons in Hin as [Hl _]. lia. }
  simpl. rewrite Hzero. simpl. split_and!; done.
Qed.

(** ** Exceptions *)

Lemma first_entry {A} (x : list (list A)) v :
  x !! 0%nat ≫= (fun row => row !! 0%nat) = Some v ->
  exists row rest, x = (v :: row) :: rest.
Proof.
  destruct x as [|[|w row] rest]; simpl; try done.
  intros [= ->]. by exists row, rest.
Qed.

(** X6: the base class: for a fresh processor with a hop size of [n] blocks,
    [n > 0], whose [processBuffered] is not overridden, the first [n - 1]
    calls return [true], and the call that completes the hop throws the
    [Error] of the base method, with both pointers at the hop size and no
    drain made. *)
Theorem unimplemented_hook_throws
        hopSize inputCount channelCount n calls inputs outputs :
  0 < n -> hopSize = n * WEB_AUDIO_BLOCK_SIZE ->
  Z.of_nat (length calls) = n - 1 ->
  Forall (fun c => shaped (Z.to_nat inputCount) (Z.to_nat channelCount)
                          (Z.to_nat WEB_AUDIO_BLOCK_SIZE) c.1) calls ->
  shaped (Z.to_nat inputCount) (Z.to_nat channelCount)
         (Z.to_nat WEB_AUDIO_BLOCK_SIZE) inputs ->
  exists s0 s1 s2,
    new hopSize (Some inputCount) (Some channelCount) = Normal tt s0
    /\ run not_implemented calls s0 = Normal (snd <$> calls, true) s1
    /\ process not_implemented inputs outputs s1 = Throw Error s2
    /\ _writePointer s2 = hopSize
    /\ _readPointer s2 = hopSize
    /\ drains (trace s2) = 0%nat.
Proof.
  intros Hn Hhop Hlen Hshapes Hin.
  assert (0 < WEB_AUDIO_BLOCK_SIZE) as Hb by done.
  set (s0 := fresh hopSize (Some inputCount) (Some channelCount)).
  pose proof (fresh_wf hopSize (Some inputCount) (Some channelCount)) as Hwf0.
  simpl in Hwf0. fold s0 in Hwf0.
  destruct (run_waiting not_implemented _ _
              (accepts_shaped (Z.to_nat inputCount) (Z.to_nat channelCount))
              calls s0)
    as (s1 & Er & [Hwf1 Hhop1] & Hw); [split; [done|simpl; nia]|done| |done|].
  { simpl. unfold WEB_AUDIO_BLOCK_SIZE in *. lia. }
  destruct Hw as (Hh & Hi & Ho & Hrp & Hwp & Hinv & Hdr).
  unfold s0 in Hh, Hrp, Hwp, Hdr. simpl in Hh, Hrp, Hwp, Hdr.
  destruct (accepts_shaped _ _ s1 inputs (conj Hwf1 Hhop1) Hin)
    as (h & E & _).
  exists s0, s1, (invoked h (accumulated h s1)).
  split; [apply new_ok; nia|]. split; [done|]. split.
  - rewrite (process_ready _ _ _ _ _ E); [done|simpl; lia|].
    simpl. rewrite Hh, Hwp. unfold WEB_AUDIO_BLOCK_SIZE in *. lia.
  - simpl. rewrite Hwp, Hrp, Hdr. unfold WEB_AUDIO_BLOCK_SIZE in *.
    split_and!; [lia|done|done].
Qed.

(** X8: an input block without a first channel, as the host passes for an input
    that nothing is connected to, on a processor that has one: the call
    throws a [TypeError] and leaves the processor as it was. *)
Theorem missing_input_channel_throws processBuffered inputs outputs s l :
  _inputBuffers s !! 0%nat ≫= (fun row => row !! 0%nat) = Some l ->
  inputs !! 0%nat ≫= (fun row => row !! 0%nat) = None ->
  process processBuffered inputs outputs s = Throw TypeError s.
Proof.
  intros Hbuf Hnone. apply first_entry in Hbuf as (row & rest & Hbufs).
  apply process_throws_early. unfold _inputBuffer.
  unfold bind at 1, gets at 1. rewrite Hbufs. simpl.
  repeat apply bind_Throw.
  by destruct (index2_cases inputs 0 0 s) as [(v & Hv & _)|[_ ->]];
    [congruence|].
Qed.

Lemma first_channel_too_long processBuffered inputs outputs s l a src :
  _inputBuffers s !! 0%nat ≫= (fun row => row !! 0%nat) = Some l ->
  heap_of s !! l = Some a ->
  inputs !! 0%nat ≫= (fun row => row !! 0%nat) = Some src ->
  (length a < length src)%nat ->
  process processBuffered inputs outputs s = Throw RangeError s.
Proof.
  intros Hbuf Ha Hsrc Hlong. apply first_entry in Hbuf as (row & rest & Hbufs).
  apply process_throws_early. unfold _inputBuffer.
  unfold bind at 1, gets at 1. rewrite Hbufs. simpl.
  do 3 apply bind_Throw. unfold bind at 1.
  destruct (index2_cases inputs 0 0 s) as [(v & Hv & ->)|[Hv _]];
    [|congruence].
  assert (v = src) as -> by congruence.
  unfold Float32Array_set, bind, read. rewrite Ha. unfold typed_set.
  by destruct (Nat.ltb_spec (length a) (length src)); [|lia].
Qed.

Lemma rows_first base ic cc :
  (0 < ic)%nat -> (0 < cc)%nat ->
  rows base ic cc !! 0%nat ≫= (fun row => row !! 0%nat) = Some base.
Proof. intros Hic Hcc. destruct ic, cc; try lia. done. Qed.

(** X9: a hop size below the block size, with at least one input and one
    channel: the buffers are shorter than a block, so the first call of
    [process] on a block of 128 samples throws a [RangeError] and leaves the
    processor as it was. *)
Theorem hop_below_block_size_throws
        processBuffered hopSize inputCount channelCount inputs outputs src :
  0 <= hopSize < WEB_AUDIO_BLOCK_SIZE ->
  0 < inputCount -> 0 < channelCount ->
  inputs !! 0%nat ≫= (fun row => row !! 0%nat) = Some src ->
  length src = Z.to_nat WEB_AUDIO_BLOCK_SIZE ->
  exists s0,
    new hopSize (Some inputCount) (Some channelCount) = Normal tt s0
    /\ process processBuffered inputs outputs s0 = Throw RangeError s0.
Proof.
  intros Hhop Hic Hcc Hsrc Hlen.
  exists (fresh hopSize (Some inputCount) (Some channelCount)).
  split; [apply new_ok; lia|].
  apply (first_channel_too_long _ _ _ _ 0%nat (zeros hopSize) src).
  - simpl. apply rows_first; lia.
  - simpl. apply lookup_replicate_2. nia.
  - done.
  - unfold zeros. rewrite length_replicate, Hlen. lia.
Qed.

Lemma _outputShiftTo_missing outputs s o :
  _outputBuffers s !! 0%nat ≫= (fun row => row !! 0%nat) = None ->
  outputs !! 0%nat ≫= (fun row => row !! 0%nat) = Some o ->
  _outputShiftTo outputs s = Throw TypeError s.
Proof.
  intros Hnone Hout. apply first_entry in Hout as (row & rest & ->).
  unfold _outputShiftTo. simpl.
  do 3 apply bind_Throw. unfold bind at 1, gets at 1.
  repeat apply bind_Throw.
  by destruct (index2_cases (_outputBuffers s) 0 0 s) as [(v & Hv & _)|[_ ->]];
    [congruence|].
Qed.

Lemma accepts_nothing s inputs :
  _inputBuffers s = [] /\ _outputBuffers s = [] /\ heap_of s = [] -> True ->
  exists h, _inputBuffer inputs s = Normal tt (accumulated h s)
            /\ (_inputBuffers (accumulated h s) = [] /\
                _outputBuffers (accumulated h s) = [] /\
                heap_of (accumulated h s) = []).
Proof.
  intros (Hin & Hout & Hheap) _. exists []. split; [|done].
  unfold _inputBuffer, bind, gets. rewrite Hin. simpl.
  unfold modify, accumulated. destruct s; simpl in *. by subst.
Qed.

(** X7: the default counts with an overridden hook: for a positive hop size,
    call number [⌈hopSize / WEB_AUDIO_BLOCK_SIZE⌉] calls [processBuffered]
    on empty buffer sets, and when that returns [true] and the host's output
    block has a channel, the drain copy that follows finds no drain buffer
    for it: the call throws a [TypeError], after the pointers were reset. *)
Theorem default_counts_output_throws
        processBuffered hopSize calls inputs outputs h o :
  0 < hopSize ->
  Z.of_nat (length calls)
  = (hopSize + WEB_AUDIO_BLOCK_SIZE - 1) / WEB_AUDIO_BLOCK_SIZE - 1 ->
  processBuffered [] [] [] = Returns true h ->
  outputs !! 0%nat ≫= (fun row => row !! 0%nat) = Some o ->
  exists s0 s1 s2,
    new hopSize None None = Normal tt s0
    /\ run processBuffered calls s0 = Normal (snd <$> calls, true) s1
    /\ process processBuffered inputs outputs s1 = Throw TypeError s2
    /\ invocations (trace s2) = [([], [])]
    /\ _readPointer s2 = 0
    /\ _writePointer s2 = 0.
Proof.
  intros Hhop Hlen Hhook Hout.
  set (s0 := fresh hopSize None None).
  destruct (run_waiting processBuffered _ _ accepts_nothing calls s0)
    as (s1 & Er & (Hi1 & Ho1 & Hh1) & Hw); [done|done| |by apply Forall_true|].
  { simpl. unfold WEB_AUDIO_BLOCK_SIZE in *. Z.div_mod_to_equations. lia. }
  destruct Hw as (Hh & _ & _ & Hrp & Hwp & Hinv & _).
  unfold s0 in Hh, Hrp, Hwp, Hinv. simpl in Hh, Hrp, Hwp, Hinv.
  destruct (accepts_nothing s1 inputs (conj Hi1 (conj Ho1 Hh1)) I)
    as (h1 & E & (_ & _ & Hh2)).
  simpl in Hh2. subst h1.
  exists s0, s1, (reset (invoked h (accumulated [] s1))).
  split; [apply new_ok; lia|]. split; [done|]. split.
  - rewrite (process_ready _ _ _ _ _ E); [|simpl; lia|].
    + assert (processBuffered (_inputBuffers s1) (_outputBuffers s1) []
              = Returns true h) as Hhook' by (by rewrite Hi1, Ho1).
      unfold bind at 1, call_processBuffered. simpl.
      rewrite Hhook'. simpl negb. cbv iota.
      transitivity ((outs <- _outputShiftTo outputs ;; ret (outs, true))
                      (reset (invoked h (accumulated [] s1)))); [done|].
      erewrite bind_Throw; [done|].
      eapply _outputShiftTo_missing; [|done]. simpl. by rewrite Ho1.
    + simpl. rewrite Hh, Hwp. unfold WEB_AUDIO_BLOCK_SIZE in *.
      Z.div_mod_to_equations. lia.
  - simpl. rewrite Hinv, Hi1, Ho1. done.
Qed.

(** ** The drain copy in general *)

(** A window of one block asked at a non-negative offset is what is left of
    the array from there, up to one block: the end is clamped. *)
Lemma subarray_window (a : f32array) (k : Z) :
  0 <= k ->
  subarray a k (k + WEB_AUDIO_BLOCK_SIZE)
  = take (Z.to_nat WEB_AUDIO_BLOCK_SIZE) (drop (Z.to_nat k) a).
Proof.
  intros Hk. unfold subarray, relative_index.
  assert (0 < WEB_AUDIO_BLOCK_SIZE) by done.
  destruct (Z.ltb_spec k 0); [lia|].
  destruct (Z.ltb_spec (k + WEB_AUDIO_BLOCK_SIZE) 0); [lia|].
  destruct (Z.le_gt_cases k (Z.of_nat (length a))) as [Hin|Hout].
  - replace (Z.to_nat (Z.min k (Z.of_nat (length a)))) with (Z.to_nat k) by lia.
    destruct (Z.le_gt_cases (k + WEB_AUDIO_BLOCK_SIZE) (Z.of_nat (length a))).
    + f_equal. lia.
    + rewrite !take_ge; [done| |]; rewrite length_drop; lia.
  - rewrite (drop_ge a (Z.to_nat k)) by lia.
    replace (Z.to_nat (Z.max _ 0)) with 0%nat by lia. done.
Qed.

Lemma imap_overlay ic cc (x y : blocks) :
  rect ic cc x -> rect ic cc y ->
  imap (fun i row =>
          imap (fun j o => channel i j x ++ drop (length (channel i j x)) o)
               row) y
  = overlay x y.
Proof.
  intros [Hxi Hx] [Hyi Hy]. apply list_eq. intros i. unfold overlay.
  rewrite list_lookup_imap, lookup_zip_with.
  destruct (y !! i) as [yrow|] eqn:Hyrow; simpl.
  - destruct (lookup_lt_is_Some_2 x i) as [xrow Hxrow].
    { rewrite Hxi, <- Hyi. by eapply lookup_lt_Some. }
    rewrite Hxrow. simpl. f_equal.
    pose proof (Forall_lookup_1 _ _ _ _ Hx Hxrow) as Hxc.
    pose proof (Forall_lookup_1 _ _ _ _ Hy Hyrow) as Hyc. simpl in *.
    apply list_eq. intros j. rewrite list_lookup_imap, lookup_zip_with.
    destruct (yrow !! j) as [o|] eqn:Ho; simpl.
    + destruct (lookup_lt_is_Some_2 xrow j) as [w Hw].
      { rewrite Hxc, <- Hyc. by eapply lookup_lt_Some. }
      rewrite Hw. simpl. by rewrite (channel_lookup _ _ _ _ _ Hxrow Hw).
    + by destruct (xrow !! j).
  - by destruct (x !! i).
Qed.

(** X5: the drain copy, for any read pointer that is not negative: every channel
    of the output block gets the samples of its drain buffer from the read
    pointer on, at most one block of them, written over its beginning, and
    keeps the rest of its samples; the read pointer advances by one block
    all the same.  Past the last whole block, the delivered slice is short
    and followed by what the host's block held before. *)
Theorem drain_copy_overlays ic cc len outputs s :
  buffers (heap_of s) ic cc len (_outputBuffers s) ->
  shaped ic cc (Z.to_nat WEB_AUDIO_BLOCK_SIZE) outputs ->
  0 <= _readPointer s ->
  _outputShiftTo outputs s
  = Normal (overlay (slice_at (_readPointer s)
                       (deref (heap_of s) (_outputBuffers s)))
                    outputs)
           (drained s).
Proof.
  intros Hbufs Hshape Hrp. unfold _outputShiftTo.
  set (x := slice_at (_readPointer s) (deref (heap_of s) (_outputBuffers s))).
  erewrite bind_Normal; [| apply (for_update_pure _
    (fun i row => imap (fun j o =>
       channel i j x ++ drop (length (channel i j x)) o) row))].
  - unfold bind, modify, ret. do 2 f_equal.
    apply (imap_overlay ic cc).
    + apply rect_fmap, rect_fmap. by eapply buffers_rect.
    + by eapply shaped_rect.
  - intros i orow Horow. simpl.
    apply (for_update_pure _
             (fun j o => channel i j x ++ drop (length (channel i j x)) o)).
    intros j o Ho. simpl.
    destruct Hshape as [Hic Hrows].
    pose proof (Forall_lookup_1 _ _ _ _ Hrows Horow) as [Hcc Hall].
    pose proof (Forall_lookup_1 _ _ _ _ Hall Ho) as Holen. simpl in Holen.
    destruct (lookup_lt_is_Some_2 (_outputBuffers s) i) as [row Hrow].
    { destruct Hbufs as [-> _]. rewrite <- Hic. by eapply lookup_lt_Some. }
    destruct (lookup_lt_is_Some_2 row j) as [l Hl].
    { destruct Hbufs as [_ Hb].
      pose proof (Forall_lookup_1 _ _ _ _ Hb Hrow) as [-> _].
      rewrite <- Hcc. by eapply lookup_lt_Some. }
    destruct (buffers_lookup _ _ _ _ _ _ _ _ _ Hbufs Hrow Hl)
      as (a & Ha & Halen).
    unfold bind, gets, index2. rewrite Hrow, Hl. unfold ret, read.
    rewrite Ha. rewrite subarray_window by done.
    unfold x. rewrite (channel_slice_deref _ _ _ _ _ _ _ _ Hrow Hl Ha).
    rewrite typed_set_block; [done|].
    rewrite length_take, Holen. lia.
Qed.

(** ** The steady state *)

Lemma run_cons_inv processBuffered inputs outputs rest s outs s' :
  run processBuffered ((inputs, outputs) :: rest) s = Normal (outs, true) s' ->
  exists o s1 outs',
    process processBuffered inputs outputs s = Normal (o, true) s1
    /\ run processBuffered rest s1 = Normal (outs', true) s'.
Proof.
  simpl. unfold bind at 1.
  destruct (process processBuffered inputs outputs s) as [[o []] s1|e s1];
    simpl; [|done|done].
  unfold bind, ret.
  destruct (run processBuffered rest s1) as [[outs' b] s2|e s2] eqn:Er;
    [|done].
  simpl. intros [= _ -> <-]. by exists o, s1, outs'.
Qed.

(** One call in the steady state: the count of accumulated blocks goes up
    by one, or, at the call that completes the hop, back to 0 with one call
    of the hook. *)
Lemma phase_step processBuffered n c inputs outputs s o s' :
  phase n c s ->
  process processBuffered inputs outputs s = Normal (o, true) s' ->
  (c + 1 < n /\ phase n (c + 1) s'
   /\ length (invocations (trace s')) = length (invocations (trace s)))
  \/ (c + 1 = n /\ phase n 0 s'
      /\ length (invocations (trace s'))
         = S (length (invocations (trace s)))).
Proof.
  intros (Hhop & Hc & Hwp & Hrp). revert o s'.
  apply process_final; intros; try done;
    match goal with H : _ = Normal _ _ |- _ => injection H as <- <- end;
    unfold phase; simpl; rewrite ?length_app; simpl;
    unfold WEB_AUDIO_BLOCK_SIZE in *.
  - left. split_and!; lia.
  - lia.
  - right. split_and!; lia.
Qed.

(** X4: in the steady state the pointers depend on the number of calls modulo
    the number [n] of blocks of a hop, and [processBuffered] is called once
    every [n] calls: after [m] calls that returned [true], from [c]
    accumulated blocks, [(c + m) mod n] blocks are accumulated and the hook
    has been called [(c + m) / n] more times. *)
Theorem steady_state_cycle processBuffered n calls :
  forall c s outs s',
    phase n c s ->
    run processBuffered calls s = Normal (outs, true) s' ->
    phase n ((c + Z.of_nat (length calls)) mod n) s'
    /\ Z.of_nat (length (invocations (trace s')))
       = Z.of_nat (length (invocations (trace s)))
         + (c + Z.of_nat (length calls)) / n.
Proof.
  induction calls as [|[inputs outputs] rest IH]; intros c s outs s' Hph Er.
  - injection Er as _ <-. destruct Hph as (Hhop & Hc & Hrest). simpl.
    rewrite Z.add_0_r, Z.mod_small, Z.div_small by lia.
    split; [by split|lia].
  - apply run_cons_inv in Er as (o & s1 & outs' & Ep & Er).
    pose proof Hph as (_ & Hc & _).
    cbn [length]. rewrite Nat2Z.inj_succ.
    destruct (phase_step _ _ _ _ _ _ _ _ Hph Ep)
      as [(Hlt & Hph1 & Hinv)|(Heq & Hph1 & Hinv)];
      destruct (IH _ _ _ _ Hph1 Er) as [Hph' Hinv'].
    + replace (c + Z.succ (Z.of_nat (length rest)))
        with (c + 1 + Z.of_nat (length rest)) by lia.
      split; [done|]. rewrite Hinv'. lia.
    + replace (c + Z.succ (Z.of_nat (length rest)))
        with (0 + Z.of_nat (length rest) + 1 * n) by lia.
      rewrite Z_mod_plus_full, Z_div_plus_full by lia.
      split; [done|]. rewrite Hinv'. lia.
Qed.

(** ** One set of arrays for both sides *)




(** ** What the accumulate step writes *)

(** The copy loop over one row of distinct references: every array of the
    row gets its channel written over its beginning, and no other array of
    the store changes. *)
Lemma copy_row_spec (input : blocks) i row :
  forall j0 s,
    NoDup row ->
    (forall k l, row !! k = Some l ->
       exists a src,
         heap_of s !! l = Some a
         /\ input !! i ≫= (fun r => r !! (j0 + k)%nat) = Some src
         /\ (length src <= length a)%nat) ->
    exists h,
      for_each (fun j target =>
                  src <- index2 input i j ;; Float32Array_set target src)
               j0 row s
      = Normal tt (set_heap h s)
      /\ (forall k l a src,
            row !! k = Some l -> heap_of s !! l = Some a ->
            input !! i ≫= (fun r => r !! (j0 + k)%nat) = Some src ->
            h !! l = Some (src ++ drop (length src) a))
      /\ (forall l, l ∉ row -> h !! l = heap_of s !! l).
Proof.
  induction row as [|l0 row IH]; intros j0 s Hnodup Hcells.
  - exists (heap_of s). simpl. split; [by destruct s|]. split; [|done].
    intros k l a src Hk. done.
  - apply NoDup_cons in Hnodup as [Hfresh Hnodup].
    destruct (Hcells 0%nat l0 eq_refl) as (a0 & src0 & Ha0 & Hsrc0 & Hfit0).
    rewrite Nat.add_0_r in Hsrc0.
    set (h1 := <[l0 := src0 ++ drop (length src0) a0]> (heap_of s)).
    assert ((src <- index2 input i j0 ;; Float32Array_set l0 src) s
            = Normal tt (set_heap h1 s)) as E0.
    { destruct (index2_cases input i j0 s) as [(v & Hv & E)|[Hv _]];
        [|congruence].
      rewrite (bind_Normal _ _ _ _ _ E).
      assert (v = src0) as -> by congruence.
      unfold Float32Array_set, bind, read. rewrite Ha0.
      by rewrite typed_set_block. }
    assert (forall l, l <> l0 -> h1 !! l = heap_of s !! l) as Hother.
    { intros l Hl. unfold h1. by rewrite list_lookup_insert_ne. }
    destruct (IH (S j0) (set_heap h1 s) Hnodup) as (h & E & Hin & Hout).
    { intros k l Hk. destruct (Hcells (S k) l Hk) as (a & src & Ha & Hsrc & Hfit).
      exists a, src. split; [|split; [|done]].
      - simpl. rewrite Hother; [done|]. intros ->. apply Hfresh.
        by eapply list_elem_of_lookup_2.
      - by replace (S j0 + k)%nat with (j0 + S k)%nat by lia. }
    exists h. simpl. rewrite (bind_Normal _ _ _ _ _ E0), E.
    split; [done|]. split.
    + intros [|k] l a src Hk Ha Hsrc; simpl in Hk.
      * injection Hk as <-. rewrite Nat.add_0_r in Hsrc.
        rewrite Hout by done. simpl. unfold h1.
        rewrite list_lookup_insert_eq by (by eapply lookup_lt_Some).
        congruence.
      * apply (Hin k l a src Hk).
        -- simpl. rewrite Hother; [done|]. intros ->. apply Hfresh.
           by eapply list_elem_of_lookup_2.
        -- by replace (S j0 + k)%nat with (j0 + S k)%nat by lia.
    + intros l Hl. apply not_elem_of_cons in Hl as [Hl0 Hl].
      rewrite Hout by done. simpl. by apply Hother.
Qed.

(** The two nested copy loops over a buffer set of distinct references. *)
Lemma copy_rows_spec (input : blocks) bufs :
  forall i0 s,
    NoDup (concat bufs) ->
    (forall k row j l, bufs !! k = Some row -> row !! j = Some l ->
       exists a src,
         heap_of s !! l = Some a
         /\ input !! (i0 + k)%nat ≫= (fun r => r !! j) = Some src
         /\ (length src <= length a)%nat) ->
    exists h,
      for_each (fun i row =>
                  for_each (fun j target =>
                    src <- index2 input i j ;; Float32Array_set target src)
                    0%nat row) i0 bufs s
      = Normal tt (set_heap h s)
      /\ (forall k row j l a src,
            bufs !! k = Some row -> row !! j = Some l ->
            heap_of s !! l = Some a ->
            input !! (i0 + k)%nat ≫= (fun r => r !! j) = Some src ->
            h !! l = Some (src ++ drop (length src) a))
      /\ (forall l, l ∉ concat bufs -> h !! l = heap_of s !! l).
Proof.
  induction bufs as [|row0 bufs IH]; intros i0 s Hnodup Hcells.
  - exists (heap_of s). simpl. split; [by destruct s|]. split; [|done].
    intros k row j l a src Hk. done.
  - simpl in Hnodup. apply NoDup_app in Hnodup as (Hnodup0 & Hdisj & Hnodup).
    destruct (copy_row_spec input i0 row0 0%nat s Hnodup0)
      as (h1 & E0 & Hin0 & Hout0).
    { intros j l Hj. destruct (Hcells 0%nat row0 j l eq_refl Hj)
        as (a & src & Ha & Hsrc & Hfit).
      exists a, src. by rewrite Nat.add_0_r in Hsrc. }
    assert (forall k row j l, bufs !! k = Some row -> row !! j = Some l ->
              l ∈ concat bufs) as Hmem.
    { intros k row j l Hk Hj. apply list_elem_of_In, in_concat.
      exists row. split; apply list_elem_of_In;
        by eapply list_elem_of_lookup_2. }
    assert (forall k row j l, bufs !! k = Some row -> row !! j = Some l ->
              h1 !! l = heap_of s !! l) as Hother.
    { intros k row j l Hk Hj. apply Hout0. intros Hl0.
      apply (Hdisj l Hl0). by eapply Hmem. }
    destruct (IH (S i0) (set_heap h1 s) Hnodup) as (h & E & Hin & Hout).
    { intros k row j l Hk Hj.
      destruct (Hcells (S k) row j l Hk Hj) as (a & src & Ha & Hsrc & Hfit).
      exists a, src. split; [|split; [|done]].
      - simpl. by rewrite (Hother k row j l).
      - by replace (S i0 + k)%nat with (i0 + S k)%nat by lia. }
    exists h. simpl. rewrite (bind_Normal _ _ _ _ _ E0), E.
    split; [done|]. split.
    + intros [|k] row j l a src Hk Hj Ha Hsrc; simpl in Hk.
      * injection Hk as <-. rewrite Nat.add_0_r in Hsrc.
        rewrite Hout; simpl.
        -- by apply (Hin0 j l a src).
        -- apply Hdisj. by eapply list_elem_of_lookup_2.
      * apply (Hin k row j l a src Hk Hj).
        -- simpl. by rewrite (Hother k row j l).
        -- by replace (S i0 + k)%nat with (i0 + S k)%nat by lia.
    + intros l Hl. simpl in Hl. apply not_elem_of_app in Hl as [Hl0 Hl].
      rewrite Hout by done. simpl. by apply Hout0.
Qed.

Lemma channel_deref (h : heap) bufs i j row l :
  bufs !! i = Some row -> row !! j = Some l ->
  channel i j (deref h bufs) = default [] (h !! l).
Proof.
  intros Hi Hj. unfold deref. eapply channel_lookup.
  - by rewrite list_lookup_fmap, Hi.
  - by rewrite list_lookup_fmap, Hj.
Qed.

Lemma _inputBuffer_writes ic cc inputs s :
  buffers (heap_of s) ic cc (Z.to_nat (_hopSize s)) (_inputBuffers s) ->
  NoDup (concat (_inputBuffers s)) ->
  shaped ic cc (Z.to_nat WEB_AUDIO_BLOCK_SIZE) inputs ->
  WEB_AUDIO_BLOCK_SIZE <= _hopSize s ->
  exists h,
    _inputBuffer inputs s = Normal tt (accumulated h s)
    /\ same_lengths (heap_of s) h
    /\ same_tails (heap_of s) h
    /\ forall i j,
         (i < ic)%nat -> (j < cc)%nat ->
         channel i j (deref h (_inputBuffers s))
         = channel i j inputs
           ++ drop (Z.to_nat WEB_AUDIO_BLOCK_SIZE)
                   (channel i j (deref (heap_of s) (_inputBuffers s))).
Proof.
  intros Hbufs Hnodup Hshape Hhop.
  assert (forall i row j l,
            _inputBuffers s !! i = Some row -> row !! j = Some l ->
            (i < ic)%nat /\ (j < cc)%nat) as Hrange.
  { intros i row j l Hi Hj. destruct Hbufs as [Hic Hrows].
    pose proof (Forall_lookup_1 _ _ _ _ Hrows Hi) as [Hcc _].
    split; [rewrite <- Hic|rewrite <- Hcc]; by eapply lookup_lt_Some. }
  destruct (copy_rows_spec inputs (_inputBuffers s) 0%nat s Hnodup)
    as (h & Eloop & Hin & _).
  { intros i row j l Hi Hj. simpl.
    destruct (Hrange _ _ _ _ Hi Hj) as [Hilt Hjlt].
    destruct (buffers_lookup _ _ _ _ _ _ _ _ _ Hbufs Hi Hj) as (a & Ha & Halen).
    destruct (shaped_lookup _ _ _ _ i j Hshape Hilt Hjlt)
      as (irow & src & Hirow & Hsrc & Hlen).
    exists a, src. split; [done|]. split; [by rewrite Hirow|]. lia. }
  destruct (_inputBuffer_ok _ _ _ _ Hbufs Hshape Hhop)
    as (h' & E & Hlen & Htail).
  assert (h' = h) as ->.
  { unfold _inputBuffer in E. unfold bind at 1, gets at 1 in E.
    rewrite (bind_Normal _ _ _ _ _ Eloop) in E.
    unfold bind, modify in E. by injection E. }
  exists h. split_and!; try done.
  intros i j Hi Hj.
  destruct (lookup_lt_is_Some_2 (_inputBuffers s) i) as [row Hrow].
  { destruct Hbufs as [-> _]. done. }
  destruct (lookup_lt_is_Some_2 row j) as [l Hl].
  { destruct Hbufs as [_ Hb].
    by pose proof (Forall_lookup_1 _ _ _ _ Hb Hrow) as [-> _]. }
  destruct (buffers_lookup _ _ _ _ _ _ _ _ _ Hbufs Hrow Hl) as (a & Ha & Halen).
  destruct (shaped_lookup _ _ _ _ i j Hshape Hi Hj)
    as (irow & src & Hirow & Hsrc & Hsrclen).
  rewrite !(channel_deref _ _ _ _ _ _ Hrow Hl), Ha.
  rewrite (channel_lookup _ _ _ _ _ Hirow Hsrc).
  rewrite (Hin i row j l a src Hrow Hl Ha); [by rewrite Hsrclen|].
  simpl. by rewrite Hirow.
Qed.

(** X2: the accumulate step on a processor whose buffers are distinct arrays,
    with a block of the configured shape: in every channel the block is
    written over the first [WEB_AUDIO_BLOCK_SIZE] samples of the buffer,
    wherever the write pointer is, and the samples after them stay as they
    were. *)
Theorem accumulate_overwrites_first_samples ic cc inputs s :
  wf ic cc s ->
  NoDup (concat (_inputBuffers s)) ->
  shaped ic cc (Z.to_nat WEB_AUDIO_BLOCK_SIZE) inputs ->
  WEB_AUDIO_BLOCK_SIZE <= _hopSize s ->
  exists h,
    _inputBuffer inputs s = Normal tt (accumulated h s)
    /\ forall i j,
         (i < ic)%nat -> (j < cc)%nat ->
         channel i j (deref h (_inputBuffers s))
         = channel i j inputs
           ++ drop (Z.to_nat WEB_AUDIO_BLOCK_SIZE)
                   (channel i j (deref (heap_of s) (_inputBuffers s))).
Proof.
  intros [Hbufs _] Hnodup Hshape Hhop.
  destruct (_inputBuffer_writes _ _ _ _ Hbufs Hnodup Hshape Hhop)
    as (h & E & _ & _ & Hch).
  by exists h.
Qed.

Lemma concat_rows cc ic : forall base,
  concat (rows base ic cc) = seq base (ic * cc).
Proof.
  induction ic as [|ic IH]; intros base; simpl; [done|].
  by rewrite IH, seq_app.
Qed.

Lemma fresh_distinct hopSize inputCount channelCount :
  NoDup (concat (_inputBuffers (fresh hopSize inputCount channelCount))).
Proof. simpl. rewrite concat_rows. apply NoDup_seq. Qed.

Lemma accepts_keeping_tails ic cc h0 s inputs :
  wf ic cc s /\ WEB_AUDIO_BLOCK_SIZE <= _hopSize s
  /\ same_tails h0 (heap_of s) ->
  shaped ic cc (Z.to_nat WEB_AUDIO_BLOCK_SIZE) inputs ->
  exists h, _inputBuffer inputs s = Normal tt (accumulated h s)
            /\ (wf ic cc (accumulated h s)
                /\ WEB_AUDIO_BLOCK_SIZE <= _hopSize (accumulated h s)
                /\ same_tails h0 (heap_of (accumulated h s))).
Proof.
  intros (Hwf & Hhop & Htails) Hin.
  destruct (_inputBuffer_ok _ _ _ _ (proj1 Hwf) Hin Hhop)
    as (h & E & Hlen & Htail).
  exists h. split; [done|]. split; [by apply wf_accumulated|].
  split; [done|]. simpl. by eapply same_tails_trans.
Qed.

(** X1: what the hook is given at the first hop: for a fresh processor with a
    hop size of [n] blocks, [n > 0], after [n - 1] calls, the call that
    completes the hop calls [processBuffered] once, and in every channel the
    buffer it is given, as inputs and as outputs alike, holds the block of
    that very call followed by zeros: the blocks of the earlier calls are
    gone. *)
Theorem first_hop_holds_last_block
        processBuffered hopSize inputCount channelCount n calls inputs outputs :
  0 < n -> hopSize = n * WEB_AUDIO_BLOCK_SIZE ->
  Z.of_nat (length calls) = n - 1 ->
  Forall (fun c => shaped (Z.to_nat inputCount) (Z.to_nat channelCount)
                          (Z.to_nat WEB_AUDIO_BLOCK_SIZE) c.1) calls ->
  shaped (Z.to_nat inputCount) (Z.to_nat channelCount)
         (Z.to_nat WEB_AUDIO_BLOCK_SIZE) inputs ->
  exists s0 s1 x,
    new hopSize (Some inputCount) (Some channelCount) = Normal tt s0
    /\ run processBuffered calls s0 = Normal (snd <$> calls, true) s1
    /\ invocations
         (trace (final_state (process processBuffered inputs outputs s1)))
       = [(x, x)]
    /\ forall i j,
         (i < Z.to_nat inputCount)%nat -> (j < Z.to_nat channelCount)%nat ->
         channel i j x
         = channel i j inputs
           ++ replicate (Z.to_nat hopSize - Z.to_nat WEB_AUDIO_BLOCK_SIZE) 0.
Proof.
  intros Hn Hhop Hlen Hshapes Hin.
  assert (0 < WEB_AUDIO_BLOCK_SIZE) as Hb by done.
  set (s0 := fresh hopSize (Some inputCount) (Some channelCount)).
  pose proof (fresh_wf hopSize (Some inputCount) (Some channelCount)) as Hwf0.
  simpl in Hwf0. fold s0 in Hwf0.
  destruct (run_waiting processBuffered _ _
              (accepts_keeping_tails (Z.to_nat inputCount)
                 (Z.to_nat channelCount) (heap_of s0))
              calls s0)
    as (s1 & Er & (Hwf1 & Hhop1 & Htails) & Hw);
    [split_and!; [done|simpl; nia|done]|done| |done|].
  { simpl. unfold WEB_AUDIO_BLOCK_SIZE in *. lia. }
  destruct Hw as (Hh & Hi & Ho & Hrp & Hwp & Hinv & Hdr).
  assert (_outputBuffers s1 = _inputBuffers s1) as Halias
    by (by rewrite Hi, Ho).
  unfold s0 in Hh, Hrp, Hwp, Hinv. simpl in Hh, Hrp, Hwp, Hinv.
  destruct (_inputBuffer_writes _ _ inputs s1 (proj1 Hwf1))
    as (h & E & _ & _ & Hch); [|done|done|].
  { rewrite Hi. apply fresh_distinct. }
  exists s0, s1, (deref h (_inputBuffers s1)).
  split; [apply new_ok; nia|]. split; [done|]. split.
  - rewrite (process_invokes _ _ _ _ _ E).
    + rewrite Hinv. simpl. by rewrite Halias.
    + simpl. lia.
    + simpl. rewrite Hh, Hwp. unfold WEB_AUDIO_BLOCK_SIZE in *. lia.
  - intros i j Hilt Hjlt. rewrite (Hch i j Hilt Hjlt). f_equal.
    destruct (lookup_lt_is_Some_2 (_inputBuffers s1) i) as [row Hrow].
    { destruct Hwf1 as [[-> _] _]. done. }
    destruct (lookup_lt_is_Some_2 row j) as [l Hl].
    { destruct Hwf1 as [[_ Hb'] _].
      by pose proof (Forall_lookup_1 _ _ _ _ Hb' Hrow) as [-> _]. }
    rewrite (channel_deref _ _ _ _ _ _ Hrow Hl).
    pose proof (same_tails_lookup _ _ l Htails) as Hl'.
    assert (heap_of s0 !! l = Some (zeros hopSize)) as Hzero.
    { rewrite Hi in Hrow.
      destruct (rows_range (Z.to_nat channelCount) (Z.to_nat inputCount) 0)
        as [_ Hrows].
      pose proof (Forall_lookup_1 _ _ _ _ Hrows Hrow) as [_ Hcells].
      pose proof (Forall_lookup_1 _ _ _ _ Hcells Hl) as Hrange.
      simpl in Hrange. simpl. apply lookup_replicate_2. lia. }
    rewrite Hzero in Hl'. simpl in Hl'.
    destruct (heap_of s1 !! l) as [a|]; [|done]. simpl in *.
    injection Hl' as ->. unfold zeros. by rewrite drop_replicate.
Qed.

(** ** Further instances *)

Lemma negative_hop_throws_witness :
  new (-1) (Some 1) (Some 2) = Throw RangeError (set_hopSize (-1) blank).
Proof. apply negative_hop_throws; lia. Defined.

Lemma no_channel_no_array_witness :
  exists s,
    new (-5) (Some 0) (Some 2) = Normal tt s
    /\ heap_of s = [] /\ _readPointer s = -5.
Proof.
  destruct (no_channel_no_array (-5) 0 2) as (s & E & Hh & _ & _ & _ & Hr & _);
    [lia|].
  by exists s.
Defined.

Lemma unimplemented_hook_throws_witness :
  exists s1 s2,
    run not_implemented [([[ones]], [[silence]])]
        (fresh 256 (Some 1) (Some 1))
    = Normal ([[[silence]]], true) s1
    /\ process not_implemented [[twos]] [[silence]] s1 = Throw Error s2
    /\ _writePointer s2 = 256.
Proof.
  destruct (unimplemented_hook_throws 256 1 1 2 [([[ones]], [[silence]])]
              [[twos]] [[silence]])
    as (s0 & s1 & s2 & E0 & E1 & E2 & Hw & _); try by vm_compute.
  - repeat constructor; by apply shaped_one_block.
  - by apply shaped_one_block.
  - rewrite new_ok in E0 by lia. injection E0 as <-. by exists s1, s2.
Defined.

Lemma missing_input_channel_throws_witness :
  process passthrough [[]] [[silence]] after_one_block
  = Throw TypeError after_one_block.
Proof.
  by apply (missing_input_channel_throws passthrough [[]] [[silence]]
              after_one_block 0%nat).
Defined.

Lemma hop_below_block_size_throws_witness :
  exists s0,
    new 64 (Some 1) (Some 1) = Normal tt s0
    /\ process passthrough [[ones]] [[silence]] s0 = Throw RangeError s0.
Proof.
  apply (hop_below_block_size_throws passthrough 64 1 1 [[ones]] [[silence]]
           ones); by vm_compute.
Defined.

Lemma default_counts_output_throws_witness :
  exists s0 s1 s2,
    new 300 None None = Normal tt s0
    /\ run passthrough [([[ones]], [[silence]]); ([[twos]], [[silence]])] s0
       = Normal ([ [[silence]]; [[silence]] ], true) s1
    /\ process passthrough [[ones]] [[silence]] s1 = Throw TypeError s2
    /\ _readPointer s2 = 0.
Proof.
  destruct (default_counts_output_throws passthrough 300
              [([[ones]], [[silence]]); ([[twos]], [[silence]])]
              [[ones]] [[silence]] [] silence)
    as (s0 & s1 & s2 & E0 & E1 & E2 & _ & Hr & _); try by vm_compute.
  by exists s0, s1, s2.
Defined.

Lemma drain_copy_overlays_witness :
  _outputShiftTo [[silence]] partial_drain
  = Normal [[replicate 72 7 ++ replicate 56 0]] (drained partial_drain).
Proof.
  rewrite (drain_copy_overlays 1 1 200 [[silence]] partial_drain).
  - by vm_compute.
  - repeat split; repeat constructor.
  - by apply shaped_one_block.
  - by vm_compute.
Defined.

Lemma after_first_hop_phase : phase 2 0 after_first_hop.
Proof. by vm_compute. Qed.

Lemma steady_state_cycle_witness :
  exists outs s',
    run passthrough [([[ones]], [[silence]]); ([[twos]], [[silence]])]
        after_first_hop
    = Normal (outs, true) s'
    /\ _writePointer s' = 0
    /\ _readPointer s' = 128
    /\ Z.of_nat (length (invocations (trace s'))) = 2.
Proof.
  assert (exists outs s',
            run passthrough [([[ones]], [[silence]]); ([[twos]], [[silence]])]
                after_first_hop
            = Normal (outs, true) s') as (outs & s' & E)
    by (eexists _, _; by vm_compute).
  destruct (steady_state_cycle passthrough 2 _ 0 after_first_hop outs s'
              after_first_hop_phase E) as [(_ & _ & Hw & Hr) Hinv].
  exists outs, s'. split_and!; done.
Defined.


Lemma accumulate_overwrites_first_samples_witness :
  exists h,
    _inputBuffer [[twos]] after_one_block
    = Normal tt (accumulated h after_one_block)
    /\ channel 0 0 (deref h (_inputBuffers after_one_block))
       = twos ++ silence.
Proof.
  destruct (accumulate_overwrites_first_samples 1 1 [[twos]] after_one_block)
    as (h & E & Hch).
  - apply after_one_block_wf.
  - vm_compute. apply NoDup_singleton.
  - by apply shaped_one_block.
  - by vm_compute.
  - exists h. split; [done|]. by rewrite (Hch 0%nat 0%nat) by lia.
Defined.

Lemma first_hop_holds_last_block_witness :
  exists s1 x,
    run passthrough [([[ones]], [[silence]])] (fresh 256 (Some 1) (Some 1))
    = Normal ([[[silence]]], true) s1
    /\ invocations
         (trace (final_state (process passthrough [[twos]] [[silence]] s1)))
       = [(x, x)]
    /\ channel 0 0 x = twos ++ silence.
Proof.
  destruct (first_hop_holds_last_block passthrough 256 1 1 2
              [([[ones]], [[silence]])] [[twos]] [[silence]])
    as (s0 & s1 & x & E0 & E1 & Hinv & Hch); try by vm_compute.
  - repeat constructor; by apply shaped_one_block.
  - by apply shaped_one_block.
  - rewrite new_ok in E0 by lia. injection E0 as <-.
    exists s1, x. split_and!; try done. by rewrite (Hch 0%nat 0%nat) by lia.
Defined.
